(** * meshbotservus: a shallow embedding of the multi-client proxy

    The development follows the Python sources:
    - [Frame]   : [MeshtasticProtocolParser] and the frame construction of
                  [src/proxy/multi_client_proxy.py];
    - [PyStr]   : the [str] operations the sources use;
    - [AI]      : [AIHandler] of [src/ai_handler.py];
    - [Proxy]   : [GeminiIntegration] and [MultiClientProxy]. *)

From Stdlib Require Import String Ascii.
From Stdlib Require Import Arith NArith ZArith Lia List Bool.
From Stdlib Require Import Strings.Byte DecimalString.
Import ListNotations.

(** Python's [a[i:j]] for [0 <= i], [0 <= j]. *)
Definition slice {A} (i j : nat) (l : list A) : list A :=
  firstn (j - i) (skipn i l).

(* ================================================================= *)
(** ** The frame codec *)

Module Frame.

Definition bytes := list byte.

Definition MESHTASTIC_MAGIC : bytes := [x94; xc3].
Definition HEADER_SIZE : nat := 4.

Fixpoint bytes_eqb (a b : bytes) : bool :=
  match a, b with
  | [], [] => true
  | x :: a', y :: b' => Byte.eqb x y && bytes_eqb a' b'
  | _, _ => false
  end.

(** [struct.unpack('>H', b)[0]] on a two-byte slice. *)
Definition unpack_H (b : bytes) : N :=
  match b with
  | [hi; lo] => (256 * Byte.to_N hi + Byte.to_N lo)%N
  | _ => 0%N
  end.

(** [struct.pack('>H', n)]; [None] is [struct.error]. *)
Definition pack_H (n : N) : option bytes :=
  if (n <=? 65535)%N then
    match Byte.of_N (n / 256), Byte.of_N (n mod 256) with
    | Some hi, Some lo => Some [hi; lo]
    | _, _ => None
    end
  else None.

(** [header = MESHTASTIC_MAGIC + struct.pack('>H', len(payload))],
    [frame = header + payload]. *)
Definition build (payload : bytes) : option bytes :=
  match pack_H (N.of_nat (length payload)) with
  | Some l => Some ((MESHTASTIC_MAGIC ++ l) ++ payload)
  | None => None
  end.

(** The [for i in range(len(self.buffer) - 1)] scan; [None] stands for
    [magic_pos == -1]. *)
Fixpoint scan (buffer : bytes) (range : list nat) : option nat :=
  match range with
  | [] => None
  | i :: range' =>
      if bytes_eqb (slice i (i + 2) buffer) MESHTASTIC_MAGIC then Some i
      else scan buffer range'
  end.

Definition magic_pos (buffer : bytes) : option nat :=
  scan buffer (seq 0 (length buffer - 1)).

Definition frame := (bytes * bytes)%type.

Definition is_empty {A} (l : list A) : bool :=
  match l with [] => true | _ => false end.

(** The body of [while len(self.buffer) >= HEADER_SIZE]. Every iteration
    that does not leave the loop makes the buffer shorter, so the loop is
    unrolled [fuel] times. *)
Fixpoint parse_loop (fuel : nat) (buffer : bytes) (frames : list frame)
  : list frame * bytes :=
  match fuel with
  | 0 => (frames, buffer)
  | S fuel' =>
      if HEADER_SIZE <=? length buffer then
        if negb (bytes_eqb (slice 0 2 buffer) MESHTASTIC_MAGIC) then
          match magic_pos buffer with
          | None =>
              if negb (is_empty buffer)
                 && Byte.eqb (last buffer x00) (hd x00 MESHTASTIC_MAGIC)
              then (frames, skipn (length buffer - 1) buffer)
              else (frames, [])
          | Some p => parse_loop fuel' (skipn p buffer) frames
          end
        else
          let length_ := unpack_H (slice 2 4 buffer) in
          let total_size := HEADER_SIZE + N.to_nat length_ in
          if length buffer <? total_size then (frames, buffer)
          else
            let raw_frame := firstn total_size buffer in
            let payload := slice HEADER_SIZE total_size buffer in
            parse_loop fuel' (skipn total_size buffer)
                       (frames ++ [(raw_frame, payload)])
      else (frames, buffer)
  end.

Record Parser := { buffer : bytes }.

(** [MeshtasticProtocolParser()] *)
Definition new_parser : Parser := {| buffer := [] |}.

(** [add_data]: the frames returned and the parser afterwards. *)
Definition add_data (self : Parser) (data : bytes) : list frame * Parser :=
  let buf := buffer self ++ data in
  let (frames, rest) := parse_loop (S (length buf)) buf [] in
  (frames, {| buffer := rest |}).

(** Successive [add_data] calls on one parser, frames concatenated. *)
Fixpoint feed (self : Parser) (chunks : list bytes) : list frame * Parser :=
  match chunks with
  | [] => ([], self)
  | c :: cs =>
      let (f1, p1) := add_data self c in
      let (f2, p2) := feed p1 cs in
      (f1 ++ f2, p2)
  end.

(** *** Auxiliary notions used to reason about the loop *)

(** [add_data] on a buffer, without the parser record. *)
Definition run (buf : bytes) : list frame * bytes :=
  parse_loop (S (length buf)) buf [].

(** [buffer[0:2] == MESHTASTIC_MAGIC] *)
Definition starts_magic (b : bytes) : bool :=
  bytes_eqb (slice 0 2 b) MESHTASTIC_MAGIC.

(** Index of the first occurrence of the magic pair. *)
Fixpoint find_magic (b : bytes) : option nat :=
  match b with
  | [] => None
  | _ :: r => if starts_magic b then Some 0 else option_map S (find_magic r)
  end.

(** The buffer from its first magic pair on; empty when there is none. *)
Fixpoint resync (b : bytes) : bytes :=
  match b with
  | [] => []
  | _ :: r => if starts_magic b then b else resync r
  end.

(** What the loop keeps of a buffer in which no magic was found. *)
Definition keep_last (b : bytes) : bytes :=
  if negb (is_empty b) && Byte.eqb (last b x00) (hd x00 MESHTASTIC_MAGIC)
  then skipn (length b - 1) b else [].

Definition total_size (b : bytes) : nat :=
  HEADER_SIZE + N.to_nat (unpack_H (slice 2 4 b)).

(** The five ways through one iteration of the loop. *)
Inductive run_case (b : bytes) : Prop :=
| case_short :
    length b < HEADER_SIZE -> run b = ([], b) -> run_case b
| case_wait :
    HEADER_SIZE <= length b -> starts_magic b = true ->
    length b < total_size b -> run b = ([], b) -> run_case b
| case_emit :
    HEADER_SIZE <= length b -> starts_magic b = true ->
    total_size b <= length b ->
    run b = ((firstn (total_size b) b, slice HEADER_SIZE (total_size b) b)
               :: fst (run (skipn (total_size b) b)),
             snd (run (skipn (total_size b) b))) ->
    run_case b
| case_skip p :
    HEADER_SIZE <= length b -> starts_magic b = false ->
    find_magic b = Some p -> 1 <= p -> skipn p b = resync b ->
    run b = run (resync b) -> run_case b
| case_drop :
    HEADER_SIZE <= length b -> starts_magic b = false ->
    find_magic b = None -> resync b = [] ->
    run b = ([], keep_last b) -> run_case b.

(** The two-byte sequence [0x94 0xC3] occurs somewhere in [b]. *)
Definition has_magic (b : bytes) : Prop :=
  exists pre post, b = pre ++ MESHTASTIC_MAGIC ++ post.

End Frame.

(* ================================================================= *)
(** ** Python strings *)

Module PyStr.

(** A [str] is a sequence of Unicode code points. *)
Definition char := N.
Definition pystr := list char.

(** An ASCII literal. *)
Fixpoint of_string (s : string) : pystr :=
  match s with
  | EmptyString => []
  | String a r => N_of_ascii a :: of_string r
  end.

Definition NEWLINE : char := 10%N.

(** [str.isspace] on one character, the set [str.strip] and [str.split]
    use. *)
Definition isspace (c : char) : bool :=
  ((9 <=? c) && (c <=? 13) || (28 <=? c) && (c <=? 32)
   || (c =? 133) || (c =? 160) || (c =? 5760)
   || (8192 <=? c) && (c <=? 8202)
   || (c =? 8232) || (c =? 8233) || (c =? 8239) || (c =? 8287)
   || (c =? 12288))%N.

Fixpoint str_eqb (a b : pystr) : bool :=
  match a, b with
  | [], [] => true
  | x :: a', y :: b' => (x =? y)%N && str_eqb a' b'
  | _, _ => false
  end.

Fixpoint lstrip (s : pystr) : pystr :=
  match s with
  | [] => []
  | c :: r => if isspace c then lstrip r else s
  end.

Definition rstrip (s : pystr) : pystr := rev (lstrip (rev s)).

Definition strip (s : pystr) : pystr := rstrip (lstrip s).

(** [s.startswith(p)] *)
Fixpoint startswith (s p : pystr) : bool :=
  match p, s with
  | [], _ => true
  | x :: p', y :: s' => (x =? y)%N && startswith s' p'
  | _ :: _, [] => false
  end.

(** [s.split()]: the maximal runs of non-whitespace characters; [cur] is
    the run being read. *)
Fixpoint split_from (cur s : pystr) : list pystr :=
  match s with
  | [] => match cur with [] => [] | _ => [cur] end
  | c :: r =>
      if isspace c then
        match cur with
        | [] => split_from [] r
        | _ => cur :: split_from [] r
        end
      else split_from (cur ++ [c]) r
  end.

Definition split (s : pystr) : list pystr := split_from [] s.

(** [sep.join(l)] *)
Fixpoint join (sep : pystr) (l : list pystr) : pystr :=
  match l with
  | [] => []
  | [w] => w
  | w :: ws => w ++ sep ++ join sep ws
  end.

(** [s[i:i+len(sub)] == sub] *)
Definition match_at (s sub : pystr) (i : nat) : bool :=
  str_eqb (slice i (i + length sub) s) sub.

(** The highest [i] in [start .. start + n - 1] at which [sub] occurs. *)
Fixpoint rfind_down (s sub : pystr) (start n : nat) : option nat :=
  match n with
  | 0 => None
  | S n' => if match_at s sub (start + n') then Some (start + n')
            else rfind_down s sub start n'
  end.

(** [s.rfind(sub, start, end)] for [0 <= start], [0 <= end]; [None] is
    the result [-1]. *)
Definition rfind (s sub : pystr) (start end_ : nat) : option nat :=
  let e := Nat.min end_ (length s) in
  if start + length sub <=? e
  then rfind_down s sub start (e - length sub - start + 1)
  else None.

(** [max(l)] of a non-empty list. *)
Definition max_list (l : list nat) : nat := fold_right Nat.max 0 l.

(** [str(n)] for a non-negative [int]. *)
Definition str_of_nat (n : nat) : pystr :=
  of_string (DecimalString.NilZero.string_of_uint (Nat.to_uint n)).

End PyStr.

(* ================================================================= *)
(** ** [src/ai_handler.py] *)

(** The outcome of a call that may raise; [Raise e] carries [str(e)]. *)
Inductive result (A : Type) : Type :=
| Ok (a : A)
| Raise (e : PyStr.pystr).
Arguments Ok {A} a.
Arguments Raise {A} e.

Module AI.
Import PyStr.

(** What [_extract_text] looks at in a response of the service: the
    [text] attribute ([None] when absent, falsy or raising), the [text] of
    the parts of the first candidate ([None] when there is none), and
    [str(response)]. *)
Record Response := {
  text : option pystr;
  parts : option (list (option pystr));
  repr : pystr
}.

(** The calls made to the external service. *)
Inductive call :=
| GenerateContent (contents : pystr)
| SendMessage (prompt : pystr).

(** [self.client]; the [n]-th [generate_content] call answers
    [generate_content n contents]. *)
Record Client := {
  generate_content : nat -> pystr -> result Response
}.

(** The [chat] argument of [_ensure_length_bounds]: [chat_respond] passes
    [user_id], a [str], which has no [send_message]; a chat session has
    one. *)
Inductive chat_obj :=
| ChatUser (user_id : pystr)
| ChatSession (send_message : pystr -> result Response).

Record AIHandler := { client : option Client }.

(** Set in [__init__], never assigned again. *)
Definition max_retries : nat := 3.
Definition min_chars : nat := 200.
Definition max_chars : nat := 600.
Definition ideal_low : nat := 250.
Definition ideal_high : nat := 450.

Definition EN_DASH : char := 8211%N.
Definition RIGHT_QUOTE : char := 8217%N.

Definition nonempty (s : pystr) : bool :=
  match s with [] => false | _ => true end.

Definition _extract_text (response : Response) : pystr :=
  let from_parts :=
    let texts :=
      match parts response with
      | Some ps =>
          flat_map (fun p => match p with
                             | Some t => if nonempty t then [t] else []
                             | None => []
                             end) ps
      | None => []
      end in
    match texts with
    | [] => repr response
    | _ => join [NEWLINE] texts
    end in
  match text response with
  | Some t => if nonempty t then t else from_parts
  | None => from_parts
  end.

Definition _clean_whitespace (s : pystr) : pystr :=
  join (of_string " ") (split s).

Definition BOUNDARIES : list pystr :=
  [of_string ". "; of_string "! "; of_string "? "; [NEWLINE];
   of_string " - "].

Definition candidates (s : pystr) (cutoff : nat) : list nat :=
  flat_map (fun p => match rfind s p 0 cutoff with
                     | Some idx => [idx + length (strip p)]
                     | None => []
                     end) BOUNDARIES.


Definition _trim_to_max_chars (s : pystr) : pystr :=
  let s := strip s in
  if length s <=? max_chars then s
  else
    let cutoff := max_chars in
    match candidates s cutoff with
    | [] => rstrip (firstn max_chars s)
    | c :: cs => strip (firstn (max_list (c :: cs)) s)
    end.

Definition expand_prompt : pystr :=
  of_string "Please expand the previous answer to roughly "
  ++ str_of_nat ideal_low ++ [EN_DASH] ++ str_of_nat ideal_high
  ++ of_string " characters. "
  ++ of_string "Do not add fluff; add only essential specifics.".

Definition _ensure_length_bounds
  (chat : chat_obj) (base_prompt first_try_text : pystr)
  : pystr * list call :=
  let text := _clean_whitespace first_try_text in
  let '(text, calls) :=
    if length text <? min_chars then
      match chat with
      | ChatUser _ => (text, [])
      | ChatSession send_message =>
          match send_message expand_prompt with
          | Ok resp =>
              let expanded := strip (_extract_text resp) in
              let expanded :=
                match _clean_whitespace expanded with
                | [] => text
                | e => e
                end in
              (expanded, [SendMessage expand_prompt])
          | Raise _ => (text, [SendMessage expand_prompt])
          end
      end
    else (text, []) in
  let text := if max_chars <? length text then _trim_to_max_chars text
              else text in
  (text, calls).

Definition concise_prompt (prompt : pystr) : pystr :=
  prompt ++ [NEWLINE; NEWLINE]
  ++ of_string "(Reply concisely per rules: ~250" ++ [EN_DASH]
  ++ of_string "450 chars total; never under 200 or over 600; "
  ++ of_string "use 1" ++ [EN_DASH]
  ++ of_string "3 short bullets or a compact paragraph; no fluff.)".

Definition FALLBACK : pystr :=
  of_string "I" ++ [RIGHT_QUOTE]
  ++ of_string "m having trouble responding right now. Please try again.".

Definition log_call (c : call) (r : result pystr * list call)
  : result pystr * list call := (fst r, c :: snd r).

(** The [for attempt in range(self.max_retries)] loop. *)
Fixpoint attempts_loop (cl : Client) (user_id contents : pystr)
  (attempts : list nat) : result pystr * list call :=
  match attempts with
  | [] => (Ok FALLBACK, [])
  | attempt :: rest =>
      log_call (GenerateContent contents)
        match generate_content cl attempt contents with
        | Ok resp =>
            let raw := strip (_extract_text resp) in
            if nonempty raw then
              let (bounded, calls) :=
                _ensure_length_bounds (ChatUser user_id) contents raw in
              (Ok bounded, calls)
            else attempts_loop cl user_id contents rest
        | Raise e =>
            if attempt <? max_retries - 1
            then attempts_loop cl user_id contents rest
            else (Raise (of_string "AI generation failed after "
                         ++ str_of_nat max_retries
                         ++ of_string " attempts: " ++ e), [])
        end
  end.

Definition chat_respond (self : AIHandler) (user_id prompt : pystr)
  : result pystr * list call :=
  match client self with
  | None => (Raise (of_string "AI model not initialized"), [])
  | Some cl =>
      attempts_loop cl user_id (concise_prompt prompt) (seq 0 max_retries)
  end.

End AI.

(* ================================================================= *)
(** ** [src/proxy/multi_client_proxy.py]: interceptor and broker *)

Module Proxy.
Import Frame PyStr AI.

(** *** Messages of [meshtastic.mesh_pb2]

    Only the fields the proxy reads or writes. An unset message field is
    [None] ([HasField] is false); numbers are Python [int]s. *)
Record Data := { portnum : Z; payload : bytes }.

Record MeshPacket := {
  from_ : Z;
  to : Z;
  channel : Z;
  decoded : option Data;
  id : Z;
  hop_limit : Z;
  want_ack : bool
}.

Record ToRadio := { to_packet : option MeshPacket; want_config_id : Z }.
Record FromRadio := { from_packet : option MeshPacket }.

(** [mesh_pb2.MeshPacket()] *)
Definition new_MeshPacket : MeshPacket :=
  {| from_ := 0; to := 0; channel := 0; decoded := None; id := 0;
     hop_limit := 0; want_ack := false |}.

(** Assigning to a 32-bit unsigned field raises [ValueError] outside its
    range. *)
Definition in_uint32 (v : Z) : bool := ((0 <=? v) && (v <=? 0xFFFFFFFF))%Z.

Definition byte_of (n : N) : byte :=
  match Byte.of_N n with Some b => b | None => x00 end.

(** [str.encode('utf-8')] of one character; [None] is
    [UnicodeEncodeError] (a surrogate). *)
Definition encode_char (c : char) : option bytes :=
  (if c <? 0x80 then Some [byte_of c]
   else if c <? 0x800 then
     Some [byte_of (0xC0 + c / 64); byte_of (0x80 + c mod 64)]
   else if c <? 0x10000 then
     if (0xD800 <=? c) && (c <=? 0xDFFF) then None
     else Some [byte_of (0xE0 + c / 4096); byte_of (0x80 + (c / 64) mod 64);
                byte_of (0x80 + c mod 64)]
   else if c <? 0x110000 then
     Some [byte_of (0xF0 + c / 262144); byte_of (0x80 + (c / 4096) mod 64);
           byte_of (0x80 + (c / 64) mod 64); byte_of (0x80 + c mod 64)]
   else None)%N.

Fixpoint encode_utf8 (s : pystr) : option bytes :=
  match s with
  | [] => Some []
  | c :: r =>
      match encode_char c, encode_utf8 r with
      | Some b, Some bs => Some (b ++ bs)
      | _, _ => None
      end
  end.

Definition hex_digit (d : N) : char :=
  (if d <? 10 then 48 + d else 87 + d)%N.

Fixpoint hex_digits (fuel : nat) (n : N) (acc : pystr) : pystr :=
  match fuel with
  | 0 => acc
  | S fuel' =>
      let acc' := hex_digit (n mod 16) :: acc in
      if (n / 16 =? 0)%N then acc' else hex_digits fuel' (n / 16) acc'
  end.

(** [f"{n:08x}"] for [0 <= n] *)
Definition format_08x (n : Z) : pystr :=
  let d := hex_digits (S (N.size_nat (Z.to_N n))) (Z.to_N n) [] in
  repeat 48%N (8 - length d) ++ d.

(** *** [GeminiIntegration] *)

Record GeminiIntegration := { ai_handler : option AIHandler }.

Definition GEM : pystr := of_string "/gem".
Definition NOT_AVAILABLE : pystr :=
  of_string "[Gemini AI not available - GEMINI_API_KEY not set]".
Definition NO_QUESTION : pystr :=
  of_string "[Please provide a question after /gem]".

(** [process_message]: the value returned ([None] or a reply) and the
    calls made to the generator. *)
Definition process_message
  (self : GeminiIntegration) (sender_id message : pystr)
  : option pystr * list call :=
  if negb (startswith message GEM) then (None, [])
  else
    match ai_handler self with
    | None => (Some NOT_AVAILABLE, [])
    | Some handler =>
        let prompt := strip (skipn 4 message) in
        if negb (nonempty prompt) then (Some NO_QUESTION, [])
        else
          match chat_respond handler sender_id prompt with
          | (Ok response, calls) => (Some response, calls)
          | (Raise e, calls) =>
              (Some (of_string "[AI Error: " ++ firstn 100 e
                     ++ of_string "]"), calls)
          end
    end.

(** *** [MultiClientProxy] *)

(** A socket writer; [write_raises] tells whether [write]/[drain] on it
    raise. *)
Record StreamWriter := { peer : nat; write_raises : bool }.

(** The dataclass [ClientConnection]; [cid] is its field [id], [reader]
    stands for the stream it reads. *)
Record ClientConnection := {
  reader : nat;
  writer : StreamWriter;
  address : pystr;
  cid : nat
}.

Inductive task :=
| ReconnectToRadio
| SendAIResponse (text : pystr) (channel : option Z).

(** What an execution does to the outside: socket writes (with the state
    of [clients_lock] at the time of a client write), closed client
    sockets, tasks handed to [asyncio.create_task], generator calls. *)
Inductive event :=
| RadioWrite (data : bytes) (ok : bool)
| ClientWrite (client_id : nat) (data : bytes) (clients_lock_held ok : bool)
| ClientClose (client_id : nat)
| CreateTask (t : task)
| Generator (c : call).

(** The fields of the proxy that the modelled methods use, and the
    [trace] of what it has done. The listen and radio addresses and
    [response_delay] (a pause, nothing more) are left out. A lock is [true]
    while held; [radio_connected] is the [asyncio.Event]. [clients] lists
    the registry in insertion order, the order in which a [dict] is
    iterated. *)
Record MultiClientProxy := {
  channel_index : Z;
  clients : list (nat * ClientConnection);
  client_id_counter : nat;
  clients_lock : bool;
  radio_writer : option StreamWriter;
  radio_lock : bool;
  radio_connected : bool;
  gemini : GeminiIntegration;
  running : bool;
  trace : list event
}.

Definition log (st : MultiClientProxy) (evs : list event) : MultiClientProxy :=
  {| channel_index := channel_index st; clients := clients st;
     client_id_counter := client_id_counter st;
     clients_lock := clients_lock st; radio_writer := radio_writer st;
     radio_lock := radio_lock st; radio_connected := radio_connected st;
     gemini := gemini st; running := running st;
     trace := trace st ++ evs |}.

Definition set_clients_lock (st : MultiClientProxy) (b : bool) : MultiClientProxy :=
  {| channel_index := channel_index st; clients := clients st;
     client_id_counter := client_id_counter st;
     clients_lock := b; radio_writer := radio_writer st;
     radio_lock := radio_lock st; radio_connected := radio_connected st;
     gemini := gemini st; running := running st; trace := trace st |}.

Definition set_clients (st : MultiClientProxy)
  (cs : list (nat * ClientConnection)) : MultiClientProxy :=
  {| channel_index := channel_index st; clients := cs;
     client_id_counter := client_id_counter st;
     clients_lock := clients_lock st; radio_writer := radio_writer st;
     radio_lock := radio_lock st; radio_connected := radio_connected st;
     gemini := gemini st; running := running st; trace := trace st |}.

Definition set_radio_connected (st : MultiClientProxy) (b : bool) : MultiClientProxy :=
  {| channel_index := channel_index st; clients := clients st;
     client_id_counter := client_id_counter st;
     clients_lock := clients_lock st; radio_writer := radio_writer st;
     radio_lock := radio_lock st; radio_connected := b;
     gemini := gemini st; running := running st; trace := trace st |}.

(** A coroutine run on its own: it returns, or it waits for ever on a
    lock that is already held ([asyncio.Lock] is not reentrant). *)
Inductive outcome (A : Type) : Type :=
| Done (a : A) (st : MultiClientProxy)
| Blocked (st : MultiClientProxy).
Arguments Done {A} a st.
Arguments Blocked {A} st.

Definition bind {A B} (m : outcome A) (k : A -> MultiClientProxy -> outcome B)
  : outcome B :=
  match m with
  | Done a st => k a st
  | Blocked st => Blocked st
  end.

Notation "'let*' ( x , st ) ':=' m 'in' k" :=
  (bind m (fun x st => k))
  (at level 10, x name, st name, m at level 100, k at level 200).

Definition state_of {A} (m : outcome A) : MultiClientProxy :=
  match m with Done _ st => st | Blocked st => st end.

(** [_remove_client] *)
Definition _remove_client (st : MultiClientProxy) (client_id : nat)
  : outcome unit :=
  if clients_lock st then Blocked st
  else
    match find (fun c => fst c =? client_id) (clients st) with
    | Some _ =>
        Done tt (log (set_clients st
                        (filter (fun c => negb (fst c =? client_id))
                                (clients st)))
                     [ClientClose client_id])
    | None => Done tt st
    end.

(** [if exclude_id and client_id == exclude_id] *)
Definition excluded (exclude_id : option nat) (client_id : nat) : bool :=
  match exclude_id with
  | Some e => negb (e =? 0) && (client_id =? e)
  | None => false
  end.

(** The first loop of [broadcast_to_clients]: the state after the writes
    and the list [disconnected]. *)
Fixpoint write_all (st : MultiClientProxy) (data : bytes)
  (exclude_id : option nat) (items : list (nat * ClientConnection))
  (disconnected : list nat) : MultiClientProxy * list nat :=
  match items with
  | [] => (st, disconnected)
  | (client_id, client) :: items' =>
      if excluded exclude_id client_id
      then write_all st data exclude_id items' disconnected
      else if write_raises (writer client)
      then write_all (log st [ClientWrite client_id data (clients_lock st)
                                false])
                     data exclude_id items' (disconnected ++ [client_id])
      else write_all (log st [ClientWrite client_id data (clients_lock st)
                                true])
                     data exclude_id items' disconnected
  end.

(** The second loop: [await self._remove_client(client_id)] for each. *)
Fixpoint remove_all (st : MultiClientProxy) (ids : list nat) : outcome unit :=
  match ids with
  | [] => Done tt st
  | client_id :: ids' =>
      let* (_, st') := _remove_client st client_id in remove_all st' ids'
  end.

(** [broadcast_to_clients]: everything happens inside
    [async with self.clients_lock]. *)
Definition broadcast_to_clients (st : MultiClientProxy) (data : bytes)
  (exclude_id : option nat) : outcome unit :=
  if clients_lock st then Blocked st
  else
    let st := set_clients_lock st true in
    let (st, disconnected) := write_all st data exclude_id (clients st) [] in
    let* (_, st) := remove_all st disconnected in
    Done tt (set_clients_lock st false).

(** [send_to_radio]; [radio_lock] is taken and released inside. *)
Definition send_to_radio (st : MultiClientProxy) (data : bytes)
  : outcome bool :=
  if radio_lock st then Blocked st
  else
    match radio_writer st with
    | None => Done false st
    | Some w =>
        if write_raises w then Done false (log st [RadioWrite data false])
        else Done true (log st [RadioWrite data true])
    end.

(** What the read loop does when the radio socket is at end of file or
    reading raises. *)
Definition radio_lost (st : MultiClientProxy) : MultiClientProxy :=
  log (set_radio_connected st false) [CreateTask ReconnectToRadio].

(** The radio write a [send_to_radio st data] call performs. *)
Definition radio_events (st : MultiClientProxy) (data : bytes) : list event :=
  match radio_writer st with
  | Some w => [RadioWrite data (negb (write_raises w))]
  | None => []
  end.

(** One write of [data] to every client that is not excluded, in the
    order of the registry, each with [clients_lock] held. *)
Definition client_writes (st : MultiClientProxy) (data : bytes)
  (exclude_id : option nat) : list event :=
  map (fun c => ClientWrite (fst c) data true
                            (negb (write_raises (writer (snd c)))))
      (filter (fun c => negb (excluded exclude_id (fst c))) (clients st)).

Section WithCodec.

(** The protobuf codec of the [meshtastic] package and the UTF-8 decoder
    are outside this repository. [parse_*] is [None] when
    [ParseFromString] raises. *)
Variable TEXT_MESSAGE_APP : Z.
Variable serialize_to_radio : ToRadio -> bytes.
Variable serialize_from_radio : FromRadio -> bytes.
Variable parse_to_radio : bytes -> option ToRadio.
Variable parse_from_radio : bytes -> option FromRadio.
Variable decode_utf8_ignore : bytes -> pystr.

Definition text_of_packet (packet : option MeshPacket) (anonymous : pystr)
  : option (pystr * Z * pystr) :=
  match packet with
  | Some packet =>
      match decoded packet with
      | Some d =>
          if (portnum d =? TEXT_MESSAGE_APP)%Z then
            let text := decode_utf8_ignore (payload d) in
            let from_id := from_ packet in
            let sender_id :=
              if (from_id =? 0)%Z then anonymous
              else of_string "!" ++ format_08x from_id in
            Some (sender_id, channel packet, text)
          else None
      | None => None
      end
  | None => None
  end.

Definition try_parse_text_message (payload : bytes)
  : option (pystr * Z * pystr) :=
  let as_to_radio :=
    match parse_to_radio payload with
    | Some to_radio => text_of_packet (to_packet to_radio) (of_string "client")
    | None => None
    end in
  match as_to_radio with
  | Some r => Some r
  | None =>
      match parse_from_radio payload with
      | Some from_radio =>
          text_of_packet (from_packet from_radio) (of_string "unknown")
      | None => None
      end
  end.

(** The inner packet of [send_ai_response]; [None] when an assignment or
    the encoding raises. *)
Definition ai_packet (packet_id use_channel : Z) (trimmed : pystr)
  : option MeshPacket :=
  if in_uint32 packet_id && in_uint32 use_channel then
    match encode_utf8 trimmed with
    | Some body =>
        Some {| from_ := from_ new_MeshPacket;
                to := 0xFFFFFFFF;
                channel := use_channel;
                decoded := Some {| portnum := TEXT_MESSAGE_APP;
                                   payload := body |};
                id := packet_id;
                hop_limit := 7;
                want_ack := true |}
    | None => None
    end
  else None.

(** [send_ai_response]; [packet_id] is what [random.randint(1,
    0xFFFFFFFF)] returns in [_generate_packet_id]. Whatever raises inside
    is caught and logged: the coroutine returns. The sleep at its start
    only delays it. *)
Definition send_ai_response (st : MultiClientProxy) (packet_id : Z)
  (text : pystr) (channel : option Z) : outcome unit :=
  let trimmed := firstn 200 text in
  let use_channel :=
    match channel with Some c => c | None => channel_index st end in
  match ai_packet packet_id use_channel trimmed with
  | None => Done tt st
  | Some mesh_packet =>
      let to_radio := {| to_packet := Some mesh_packet; want_config_id := 0 |} in
      let payload := serialize_to_radio to_radio in
      match build payload with
      | None => Done tt st
      | Some frame =>
          let* (_, st) := send_to_radio st frame in
          let from_radio := {| from_packet := Some mesh_packet |} in
          let client_payload := serialize_from_radio from_radio in
          match build client_payload with
          | None => Done tt st
          | Some client_frame => broadcast_to_clients st client_frame None
          end
      end
  end.

(** The [for raw_frame, payload in frames] loop shared by
    [handle_client_data] and [handle_radio_data]. *)
Fixpoint intercept (st : MultiClientProxy) (frames : list frame)
  : MultiClientProxy :=
  match frames with
  | [] => st
  | (raw_frame, payload) :: frames' =>
      let st :=
        match try_parse_text_message payload with
        | Some (sender_id, channel, text) =>
            if startswith text GEM then
              let (response, calls) :=
                process_message (gemini st) sender_id text in
              let st := log st (map Generator calls) in
              match response with
              | Some r =>
                  if nonempty r
                  then log st [CreateTask (SendAIResponse r (Some channel))]
                  else st
              | None => st
              end
            else st
        | None => st
        end in
      intercept st frames'
  end.

(** [handle_client_data] *)
Definition handle_client_data (st : MultiClientProxy)
  (client : ClientConnection) (data : bytes) : outcome unit :=
  let parser := new_parser in
  let (frames, _) := add_data parser data in
  let st := intercept st frames in
  let* (_, st) := send_to_radio st data in
  Done tt st.

(** [handle_radio_data] *)
Definition handle_radio_data (st : MultiClientProxy) (data : bytes)
  : outcome unit :=
  let parser := new_parser in
  let (frames, _) := add_data parser data in
  let st := intercept st frames in
  broadcast_to_clients st data None.

(** One turn of the loop of [radio_reader_task] once the radio is
    connected, on what [radio_reader.read(4096)] gives. *)
Definition radio_reader_step (st : MultiClientProxy) (read : result bytes)
  : outcome unit :=
  match read with
  | Ok [] => Done tt (radio_lost st)
  | Ok data => handle_radio_data st data
  | Raise _ => Done tt (radio_lost st)
  end.

End WithCodec.

End Proxy.

(* ================================================================= *)
(** ** Concrete inputs used in the examples *)

Module Demo.
Import Frame PyStr AI Proxy.

Definition demo_response : Response :=
  {| text := Some (of_string "Hello   world"); parts := None; repr := [] |}.

Definition demo_handler : AIHandler :=
  {| client := Some {| generate_content := fun _ _ => Ok demo_response |} |}.


(** A stand-in for the protobuf codec: an upstream envelope is a text
    packet on channel 2 whose body is the payload itself. *)
Definition demo_parse_to_radio (payload : bytes) : option ToRadio :=
  Some {| to_packet :=
            Some {| from_ := 0; to := 0xFFFFFFFF; channel := 2;
                    decoded := Some {| portnum := 1; payload := payload |};
                    id := 1; hop_limit := 3; want_ack := false |};
          want_config_id := 0 |}.

Definition demo_parse_from_radio (payload : bytes) : option FromRadio := None.

Definition demo_decode (b : bytes) : pystr := map Byte.to_N b.

Definition demo_serialize_packet (p : option MeshPacket) : bytes :=
  match p with
  | Some p => match decoded p with
              | Some d => Proxy.payload d
              | None => []
              end
  | None => []
  end.

Definition demo_serialize_to_radio (m : ToRadio) : bytes :=
  x0a :: demo_serialize_packet (to_packet m).

Definition demo_serialize_from_radio (m : FromRadio) : bytes :=
  x12 :: demo_serialize_packet (from_packet m).

Definition demo_writer (n : nat) : StreamWriter :=
  {| peer := n; write_raises := false |}.

Definition demo_broken_writer : StreamWriter :=
  {| peer := 0; write_raises := true |}.

Definition demo_client (n : nat) : ClientConnection :=
  {| reader := n; writer := demo_writer n;
     address := of_string "127.0.0.1:5000"; cid := n |}.

(** A running proxy with the radio connected and [n] clients. *)
Definition demo_proxy (radio : StreamWriter)
  (cs : list (nat * ClientConnection)) : MultiClientProxy :=
  {| channel_index := 2; clients := cs; client_id_counter := length cs;
     clients_lock := false; radio_writer := Some radio;
     radio_lock := false; radio_connected := true;
     gemini := {| ai_handler := Some demo_handler |};
     running := true; trace := [] |}.


(** The frame of ["/gem hi"], cut after its fifth byte. *)
Definition chunk1 : bytes := [x94; xc3; x00; x07; x2f].
Definition chunk2 : bytes := [x67; x65; x6d; x20; x68; x69].

Definition demo_handle_client_data :=
  handle_client_data 1 demo_parse_to_radio demo_parse_from_radio demo_decode.


Definition demo_send_ai_response :=
  send_ai_response 1 demo_serialize_to_radio demo_serialize_from_radio.

Definition two_clients : MultiClientProxy :=
  demo_proxy (demo_writer 0) [(1, demo_client 1); (2, demo_client 2)].

End Demo.

(* ================================================================= *)
(** ** Further notions for the frame codec *)

Module FrameObs.
Import Frame.

(** The bytes a list of frames takes on the wire. *)
Definition raw_length (frames : list frame) : nat :=
  list_sum (map (fun f => length (fst f)) frames).

(** [raw] is the frame [build] makes of [payload]. *)
Definition well_formed (f : frame) : Prop := build (snd f) = Some (fst f).

End FrameObs.

(* ================================================================= *)
(** ** Further notions for strings *)

Module PyStrObs.
Import PyStr.

Definition SPACE : char := 32%N.

Definition nonspace (c : char) : Prop := isspace c = false.

(** A non-empty run of characters that are not whitespace. *)
Definition word (w : pystr) : Prop := w <> [] /\ Forall nonspace w.

(** [p] is a prefix of [s]. *)
Definition prefix_of (p s : pystr) : Prop := exists rest, s = p ++ rest.

End PyStrObs.

(* ================================================================= *)
(** ** [MultiClientProxy]: accepting clients and the radio link *)

Module Broker.
Import Frame PyStr AI Proxy.

Definition set_client_id_counter (st : MultiClientProxy) (n : nat)
  : MultiClientProxy :=
  {| channel_index := channel_index st; clients := clients st;
     client_id_counter := n;
     clients_lock := clients_lock st; radio_writer := radio_writer st;
     radio_lock := radio_lock st; radio_connected := radio_connected st;
     gemini := gemini st; running := running st; trace := trace st |}.

(** [self.radio_reader, self.radio_writer = ...]: the two ends of one
    socket, set together; the writer stands for both. *)
Definition set_radio_writer (st : MultiClientProxy) (w : option StreamWriter)
  : MultiClientProxy :=
  {| channel_index := channel_index st; clients := clients st;
     client_id_counter := client_id_counter st;
     clients_lock := clients_lock st; radio_writer := w;
     radio_lock := radio_lock st; radio_connected := radio_connected st;
     gemini := gemini st; running := running st; trace := trace st |}.

(** [d[k] = v] on a [dict] kept in insertion order. *)
Fixpoint dict_set (k : nat) (v : ClientConnection)
  (d : list (nat * ClientConnection)) : list (nat * ClientConnection) :=
  match d with
  | [] => [(k, v)]
  | (k', v') :: r =>
      if k' =? k then (k, v) :: r else (k', v') :: dict_set k v r
  end.

(** The head of [handle_client], inside [async with self.clients_lock]:
    the counter is incremented and the connection stored under the new
    id. [address] is the peer name as text. *)
Definition register_client (st : MultiClientProxy) (reader : nat)
  (writer : StreamWriter) (address : pystr) : outcome ClientConnection :=
  if clients_lock st then Blocked st
  else
    let st := set_client_id_counter st (client_id_counter st + 1) in
    let client_id := client_id_counter st in
    let client := {| reader := reader; writer := writer;
                     address := address; cid := client_id |} in
    Done client (set_clients st (dict_set client_id client (clients st))).

(** What [asyncio.wait_for(reader.read(4096), timeout=60.0)] gives: bytes
    (none at end of file), a timeout, or another exception. *)
Inductive read :=
| Chunk (data : bytes)
| Timeout
| Fails.

(** The ids in the registry are distinct and were all handed out by the
    counter. *)
Definition registry_ok (st : MultiClientProxy) : Prop :=
  NoDup (map fst (clients st))
  /\ Forall (fun c => 1 <= fst c <= client_id_counter st) (clients st).

(** The chunks a client handler gets before the connection ends. *)
Fixpoint received (reads : list read) : list bytes :=
  match reads with
  | [] => []
  | Chunk [] :: _ => []
  | Chunk data :: rest => data :: received rest
  | Timeout :: rest => received rest
  | Fails :: _ => []
  end.

(** The socket writes of a trace, in order. *)
Definition is_socket_write (e : event) : bool :=
  match e with
  | RadioWrite _ _ | ClientWrite _ _ _ _ => true
  | _ => false
  end.

Definition socket_writes (tr : list event) : list event :=
  filter is_socket_write tr.

Definition tasks_created (tr : list event) : list task :=
  flat_map (fun e => match e with CreateTask t => [t] | _ => [] end) tr.

(** What [open_connection] under [wait_for] gives. *)
Inductive dial :=
| Connected (w : StreamWriter)
| DialTimeout
| DialError.

(** The delay before the [i]-th reconnection attempt. *)
Definition backoff_at (i : nat) : nat := Nat.min (2 ^ i) 30.

Section WithCodec.

Variable TEXT_MESSAGE_APP : Z.
Variable serialize_to_radio : ToRadio -> bytes.
Variable parse_to_radio : bytes -> option ToRadio.
Variable parse_from_radio : bytes -> option FromRadio.
Variable decode_utf8_ignore : bytes -> pystr.

(** The frame carries a text record whose text begins with [/gem]. *)
Definition is_gem (f : frame) : bool :=
  match try_parse_text_message TEXT_MESSAGE_APP parse_to_radio
          parse_from_radio decode_utf8_ignore (snd f) with
  | Some (_, _, text) => startswith text GEM
  | None => false
  end.

(** The task a [/gem] record is answered with: the reply of
    [process_message], on the channel of the record. *)
Definition answers (g : GeminiIntegration) (f : frame) (t : task) : Prop :=
  exists sender_id channel text r,
    try_parse_text_message TEXT_MESSAGE_APP parse_to_radio parse_from_radio
      decode_utf8_ignore (snd f) = Some (sender_id, channel, text)
    /\ fst (process_message g sender_id text) = Some r
    /\ r <> [] /\ length r <= max_chars
    /\ t = SendAIResponse r (Some channel).

(** The [while self.running] loop of [handle_client]; after the reads
    listed the peer closes the connection. *)
Fixpoint client_loop (st : MultiClientProxy) (client : ClientConnection)
  (reads : list read) : outcome unit :=
  if negb (running st) then Done tt st
  else
    match reads with
    | [] => Done tt st
    | Chunk [] :: _ => Done tt st
    | Chunk data :: rest =>
        let* (_, st) :=
          handle_client_data TEXT_MESSAGE_APP parse_to_radio parse_from_radio
                             decode_utf8_ignore st client data in
        client_loop st client rest
    | Timeout :: rest => client_loop st client rest
    | Fails :: _ => Done tt st
    end.

(** [handle_client]: register, wait for the radio, serve the reads, and
    in the [finally] clause remove the client. Waiting on
    [radio_connected] while it is clear does not return. *)
Definition handle_client (st : MultiClientProxy) (reader : nat)
  (writer : StreamWriter) (address : pystr) (reads : list read)
  : outcome unit :=
  let* (client, st) := register_client st reader writer address in
  let client_id := cid client in
  if negb (radio_connected st) then Blocked st
  else
    let* (_, st) := client_loop st client reads in
    _remove_client st client_id.

(** [_send_want_config]; [config_id] is what [random.randint(1,
    0xFFFFFFFF)] returns. The frame is written to [radio_writer] directly.
    Whatever raises is caught and logged. *)
Definition _send_want_config (st : MultiClientProxy) (config_id : Z)
  : MultiClientProxy :=
  if in_uint32 config_id then
    let to_radio := {| to_packet := None; want_config_id := config_id |} in
    let payload := serialize_to_radio to_radio in
    match build payload with
    | None => st
    | Some frame =>
        match radio_writer st with
        | None => st
        | Some w => log st [RadioWrite frame (negb (write_raises w))]
        end
    end
  else st.

(** [connect_to_radio] *)
Definition connect_to_radio (st : MultiClientProxy) (d : dial)
  (config_id : Z) : bool * MultiClientProxy :=
  match d with
  | Connected w =>
      let st := set_radio_writer st (Some w) in
      let st := _send_want_config st config_id in
      (true, set_radio_connected st true)
  | DialTimeout => (false, st)
  | DialError => (false, st)
  end.

(** The loop of [reconnect_to_radio] over the attempts that are made:
    the sleeps, in seconds, and the proxy afterwards. *)
Fixpoint reconnect_loop (st : MultiClientProxy) (backoff : nat)
  (dials : list (dial * Z)) : list nat * MultiClientProxy :=
  if negb (running st) then ([], st)
  else
    match dials with
    | [] => ([], st)
    | (d, config_id) :: rest =>
        match connect_to_radio st d config_id with
        | (true, st') => ([backoff], st')
        | (false, st') =>
            let (sleeps, st'') :=
              reconnect_loop st' (Nat.min (backoff * 2) 30) rest in
            (backoff :: sleeps, st'')
        end
    end.

(** [reconnect_to_radio] *)
Definition reconnect_to_radio (st : MultiClientProxy)
  (dials : list (dial * Z)) : list nat * MultiClientProxy :=
  reconnect_loop (set_radio_connected st false) 1 dials.

End WithCodec.

End Broker.

(* ================================================================= *)
(** ** More concrete inputs *)

Module Demo2.
Import Frame PyStr AI Proxy Demo.

(** A service that is down: every [generate_content] call raises. *)
Definition failing_handler : AIHandler :=
  {| client := Some {| generate_content :=
                         fun _ _ => Raise (of_string "boom") |} |}.

Definition demo_handle_client :=
  Broker.handle_client 1 demo_parse_to_radio demo_parse_from_radio
                       demo_decode.

Definition demo_handle_radio_data :=
  handle_radio_data 1 demo_parse_to_radio demo_parse_from_radio demo_decode.

Definition demo_is_gem :=
  Broker.is_gem 1 demo_parse_to_radio demo_parse_from_radio demo_decode.

Definition demo_answers :=
  Broker.answers 1 demo_parse_to_radio demo_parse_from_radio demo_decode.

(** A client that sends a frame in two reads with an idle minute in
    between, then closes. *)
Definition demo_reads : list Broker.read :=
  [Broker.Chunk chunk1; Broker.Timeout; Broker.Chunk chunk2;
   Broker.Chunk []; Broker.Chunk [x01]].

Definition demo_connect := Broker.connect_to_radio demo_serialize_to_radio.

Definition demo_reconnect :=
  Broker.reconnect_to_radio demo_serialize_to_radio.

(** Six dials that fail. *)
Definition six_failures : list (Broker.dial * Z) :=
  [(Broker.DialTimeout, 5%Z); (Broker.DialError, 6%Z);
   (Broker.DialTimeout, 7%Z); (Broker.DialTimeout, 8%Z);
   (Broker.DialError, 9%Z); (Broker.DialTimeout, 10%Z)].

End Demo2.

(* ================================================================= *)
(** ** Facts about the frame codec *)

Module FrameFacts.
Import Frame.

Lemma bytes_eqb_eq (a b : bytes) : bytes_eqb a b = true <-> a = b.
Proof.
  revert b; induction a as [|x a IH]; intros [|y b]; simpl; split;
    try congruence; try reflexivity.
  - intros H. apply andb_true_iff in H as [H1 H2].
    apply Byte.byte_dec_bl in H1. apply IH in H2. congruence.
  - intros H. injection H as -> ->. apply andb_true_iff. split.
    + now apply Byte.byte_dec_lb.
    + now apply IH.
Qed.

Lemma starts_magic_true (b : bytes) :
  starts_magic b = true <-> exists r, b = x94 :: xc3 :: r.
Proof.
  unfold starts_magic, slice. rewrite bytes_eqb_eq. simpl.
  destruct b as [|x [|y r]]; simpl; split; try discriminate;
    try (intros [r' Hr]; discriminate).
  - intros H. injection H as -> ->. now exists r.
  - intros [r' Hr]. now injection Hr as -> -> _.
Qed.

Lemma starts_magic_short (b : bytes) : length b < 2 -> starts_magic b = false.
Proof.
  intros H. destruct (starts_magic b) eqn:E; [|reflexivity].
  apply starts_magic_true in E as [r ->]. simpl in H. lia.
Qed.

Lemma starts_magic_app (b c : bytes) :
  2 <= length b -> starts_magic (b ++ c) = starts_magic b.
Proof.
  destruct b as [|x [|y r]]; simpl; try lia. intros _. reflexivity.
Qed.

Lemma scan_seq (b : bytes) (n i : nat) :
  i + n = length b - 1 ->
  scan b (seq i n) = option_map (Nat.add i) (find_magic (skipn i b)).
Proof.
  revert i; induction n as [|n IH]; intros i Hi; simpl.
  - destruct (skipn i b) as [|x r] eqn:E; [reflexivity|].
    assert (Hl : length (skipn i b) <= 1) by (rewrite length_skipn; lia).
    simpl. rewrite starts_magic_short by (rewrite <- E; lia).
    rewrite E in Hl. destruct r; [reflexivity | simpl in Hl; lia].
  - assert (Hs : slice i (i + 2) b = slice 0 2 (skipn i b)).
    { unfold slice. simpl skipn. f_equal. lia. }
    rewrite Hs. fold (starts_magic (skipn i b)).
    destruct (skipn i b) as [|x r] eqn:E.
    { apply (f_equal (@length _)) in E. rewrite length_skipn in E.
      simpl in E. lia. }
    assert (Hr : skipn (S i) b = r).
    { replace (S i) with (1 + i) by lia. rewrite <- skipn_skipn, E.
      reflexivity. }
    cbn [find_magic]. destruct (starts_magic (x :: r)).
    + simpl. f_equal. lia.
    + rewrite IH by lia. rewrite Hr. destruct (find_magic r); simpl;
        [f_equal; lia | reflexivity].
Qed.

Lemma magic_pos_find (b : bytes) : magic_pos b = find_magic b.
Proof.
  unfold magic_pos. rewrite scan_seq by lia. simpl.
  now destruct (find_magic b).
Qed.

Lemma find_magic_some (b : bytes) (p : nat) :
  find_magic b = Some p ->
  skipn p b = resync b /\ starts_magic (resync b) = true /\ p + 2 <= length b.
Proof.
  revert p; induction b as [|x r IH]; intros p; simpl; [discriminate|].
  change (bytes_eqb (slice 0 2 (x :: r)) MESHTASTIC_MAGIC)
    with (starts_magic (x :: r)).
  destruct (starts_magic (x :: r)) eqn:E.
  - intros H; injection H as <-. repeat split; auto.
    apply starts_magic_true in E as [r' E]. injection E as _ ->. simpl. lia.
  - destruct (find_magic r) as [q|]; simpl; [|discriminate].
    intros H; injection H as <-. destruct (IH q eq_refl) as (H1 & H2 & H3).
    repeat split; auto. simpl. lia.
Qed.

Lemma find_magic_none (b : bytes) : find_magic b = None -> resync b = [].
Proof.
  induction b as [|x r IH]; simpl; [reflexivity|].
  change (bytes_eqb (slice 0 2 (x :: r)) MESHTASTIC_MAGIC)
    with (starts_magic (x :: r)).
  destruct (starts_magic (x :: r)); [discriminate|].
  destruct (find_magic r); simpl; [discriminate | auto].
Qed.

Lemma find_magic_pos (b : bytes) (p : nat) :
  starts_magic b = false -> find_magic b = Some p -> 1 <= p.
Proof.
  destruct b as [|x r]; simpl; [discriminate|].
  change (bytes_eqb (slice 0 2 (x :: r)) MESHTASTIC_MAGIC)
    with (starts_magic (x :: r)).
  intros ->. destruct (find_magic r); simpl; [|discriminate].
  intros H; injection H as <-. lia.
Qed.

(** *** The loop does not depend on its fuel *)

Lemma parse_loop_acc (n : nat) (b : bytes) (acc : list frame) :
  parse_loop n b acc
  = (acc ++ fst (parse_loop n b []), snd (parse_loop n b [])).
Proof.
  revert b acc; induction n as [|n IH]; intros b acc; cbn [parse_loop].
  - cbn [fst snd]. now rewrite app_nil_r.
  - destruct (HEADER_SIZE <=? length b);
      [|cbn [fst snd]; now rewrite app_nil_r].
    destruct (negb (bytes_eqb (slice 0 2 b) MESHTASTIC_MAGIC)).
    + destruct (magic_pos b); [apply IH|].
      destruct (_ && _); cbn [fst snd]; now rewrite app_nil_r.
    + destruct (length b <? _); [cbn [fst snd]; now rewrite app_nil_r|].
      cbn [app]. rewrite IH. rewrite (IH _ [_]). cbn [fst snd].
      now rewrite <- app_assoc.
Qed.

Lemma parse_loop_fuel (n m : nat) (b : bytes) (acc : list frame) :
  length b < n -> length b < m -> parse_loop n b acc = parse_loop m b acc.
Proof.
  revert m b acc; induction n as [|n IH]; intros m b acc Hn Hm; [lia|].
  destruct m as [|m]; [lia|]. cbn [parse_loop].
  destruct (HEADER_SIZE <=? length b) eqn:Hh; [|reflexivity].
  apply Nat.leb_le in Hh. unfold HEADER_SIZE in Hh.
  destruct (negb (bytes_eqb (slice 0 2 b) MESHTASTIC_MAGIC)) eqn:Hs.
  - destruct (magic_pos b) as [p|] eqn:Hp; [|reflexivity].
    rewrite magic_pos_find in Hp. apply negb_true_iff in Hs.
    pose proof (find_magic_pos b p Hs Hp).
    apply IH; rewrite length_skipn; lia.
  - destruct (length b <? _) eqn:Hl; [reflexivity|].
    apply IH; rewrite length_skipn; unfold HEADER_SIZE; lia.
Qed.

(** The loop, as an equation on [run]. *)
Lemma run_eq (b : bytes) :
  run b =
  if HEADER_SIZE <=? length b then
    if starts_magic b then
      let total_size := HEADER_SIZE + N.to_nat (unpack_H (slice 2 4 b)) in
      if length b <? total_size then ([], b)
      else ((firstn total_size b, slice HEADER_SIZE total_size b)
              :: fst (run (skipn total_size b)),
            snd (run (skipn total_size b)))
    else
      match find_magic b with
      | None => ([], keep_last b)
      | Some p => run (skipn p b)
      end
  else ([], b).
Proof.
  unfold run at 1. cbn [parse_loop]. fold (starts_magic b).
  destruct (HEADER_SIZE <=? length b) eqn:Hh; [|reflexivity].
  apply Nat.leb_le in Hh. unfold HEADER_SIZE in Hh.
  rewrite magic_pos_find.
  destruct (starts_magic b) eqn:Hs; cbn [negb].
  - cbv zeta. destruct (length b <? _) eqn:Hl; [reflexivity|].
    rewrite parse_loop_acc. cbn [app]. unfold run.
    rewrite (parse_loop_fuel (length b)
               (S (length (skipn (HEADER_SIZE +
                     N.to_nat (unpack_H (slice 2 4 b))) b)))); [reflexivity| |lia].
    rewrite length_skipn. unfold HEADER_SIZE. lia.
  - destruct (find_magic b) as [p|] eqn:Hp.
    + pose proof (find_magic_pos b p Hs Hp). unfold run.
      apply parse_loop_fuel; rewrite ?length_skipn; lia.
    + unfold keep_last. now destruct (_ && _).
Qed.

Lemma run_cases (b : bytes) : run_case b.
Proof.
  pose proof (run_eq b) as E. cbv zeta in E. fold (total_size b) in E.
  destruct (HEADER_SIZE <=? length b) eqn:Hh.
  2:{ apply Nat.leb_gt in Hh. now apply case_short. }
  apply Nat.leb_le in Hh. destruct (starts_magic b) eqn:Hs.
  - destruct (length b <? total_size b) eqn:Hl.
    + apply Nat.ltb_lt in Hl. now apply case_wait.
    + apply Nat.ltb_ge in Hl. now apply case_emit.
  - destruct (find_magic b) as [p|] eqn:Hp.
    + destruct (find_magic_some b p Hp) as (H1 & _ & _).
      apply (case_skip b p); auto.
      * now apply find_magic_pos with b.
      * now rewrite <- H1.
    + apply case_drop; auto. now apply find_magic_none.
Qed.

Lemma run_short (b : bytes) : length b < HEADER_SIZE -> run b = ([], b).
Proof.
  intros H. rewrite run_eq. apply Nat.leb_gt in H. now rewrite H.
Qed.

Lemma resync_length (b : bytes) : length (resync b) <= length b.
Proof.
  induction b as [|x r IH]; cbn [resync]; [lia|].
  destruct (starts_magic (x :: r)); simpl; lia.
Qed.

Lemma resync_start (b : bytes) : starts_magic b = true -> resync b = b.
Proof. destruct b; cbn [resync]; [reflexivity | now intros ->]. Qed.

Lemma resync_app_magic (b c : bytes) :
  starts_magic (resync b) = true -> resync (b ++ c) = resync b ++ c.
Proof.
  induction b as [|x r IH]; cbn [resync app].
  - intros H. now rewrite starts_magic_short in H by (simpl; lia).
  - destruct (starts_magic (x :: r)) eqn:E.
    + intros _. change (x :: r ++ c) with ((x :: r) ++ c).
      rewrite starts_magic_app, E; [reflexivity|].
      apply starts_magic_true in E as [r' E]. rewrite E. simpl. lia.
    + intros H. destruct r as [|y r'].
      { now rewrite starts_magic_short in H by (simpl; lia). }
      change (x :: (y :: r') ++ c) with ((x :: y :: r') ++ c).
      rewrite starts_magic_app, E by (simpl; lia). now apply IH.
Qed.

Lemma keep_last_cons (x y : byte) (r : bytes) :
  keep_last (x :: y :: r) = keep_last (y :: r).
Proof.
  unfold keep_last. cbn [is_empty negb andb].
  change (last (x :: y :: r) x00) with (last (y :: r) x00).
  destruct (Byte.eqb _ _); [|reflexivity].
  cbn [length]. now rewrite !Nat.sub_succ, !Nat.sub_0_r.
Qed.

Lemma resync_app_none (b c : bytes) :
  resync b = [] -> resync (b ++ c) = resync (keep_last b ++ c).
Proof.
  induction b as [|x r IH]; [reflexivity|]. cbn [resync].
  destruct (starts_magic (x :: r)) eqn:E; [discriminate|]. intros Hr.
  destruct r as [|y r'].
  - unfold keep_last. cbn [is_empty negb andb last hd MESHTASTIC_MAGIC].
    destruct (Byte.eqb x x94) eqn:Ex; [reflexivity|].
    cbn [app resync]. destruct (starts_magic (x :: c)) eqn:Ec; [|reflexivity].
    apply starts_magic_true in Ec as [r Ec]. injection Ec as -> _.
    discriminate.
  - rewrite keep_last_cons. rewrite <- IH by assumption.
    change ((x :: y :: r') ++ c) with (x :: (y :: r') ++ c) at 1.
    cbn [resync]. change (x :: (y :: r') ++ c) with ((x :: y :: r') ++ c).
    now rewrite starts_magic_app, E by (simpl; lia).
Qed.

(** Bytes before the first magic pair never matter for the frames. *)
Lemma run_resync (b : bytes) : fst (run b) = fst (run (resync b)).
Proof.
  destruct (run_cases b) as [Hl E|Hl Hs _ E|Hl Hs _ E|p Hl Hs _ _ _ E|Hl Hs _ Hn E].
  - rewrite E, run_short; [reflexivity|]. pose proof (resync_length b). lia.
  - now rewrite resync_start.
  - now rewrite resync_start.
  - now rewrite E.
  - now rewrite E, Hn.
Qed.

(** The buffer left by [add_data] holds no complete frame. *)
Lemma run_stable (b : bytes) : fst (run (snd (run b))) = [].
Proof.
  remember (length b) as n eqn:Hn. revert b Hn.
  induction n as [n IH] using lt_wf_ind. intros b ->.
  destruct (run_cases b) as [Hl E|Hl Hs Ht E|Hl Hs Ht E|p Hl Hs Hp H1 H2 E|Hl Hs _ _ E].
  - now rewrite E at 1; cbn [snd]; rewrite E.
  - now rewrite E at 1; cbn [snd]; rewrite E.
  - rewrite E. cbn [snd]. apply (IH (length (skipn (total_size b) b)));
      [|reflexivity].
    rewrite length_skipn. unfold total_size, HEADER_SIZE in *. lia.
  - rewrite E. apply (IH (length (resync b))); [|reflexivity].
    rewrite <- H2, length_skipn. unfold HEADER_SIZE in *. lia.
  - rewrite E. cbn [snd]. rewrite run_short; [reflexivity|].
    unfold keep_last. destruct (_ && _); [|simpl; unfold HEADER_SIZE; lia].
    rewrite length_skipn. unfold HEADER_SIZE in *. lia.
Qed.

Lemma slice_app {A} (i j : nat) (l l' : list A) :
  j <= length l -> slice i j (l ++ l') = slice i j l.
Proof.
  intros H. unfold slice. rewrite skipn_app, firstn_app, length_skipn.
  replace (j - i - (length l - i)) with 0 by lia.
  now rewrite firstn_O, app_nil_r.
Qed.

(** A complete frame at the head of the buffer is emitted, whatever
    follows it. *)
Lemma run_emit (b c : bytes) :
  HEADER_SIZE <= length b -> starts_magic b = true ->
  total_size b <= length b ->
  run (b ++ c)
  = ((firstn (total_size b) b, slice HEADER_SIZE (total_size b) b)
       :: fst (run (skipn (total_size b) b ++ c)),
     snd (run (skipn (total_size b) b ++ c))).
Proof.
  intros Hl Hs Ht. rewrite run_eq. cbv zeta.
  assert (Hlen : (HEADER_SIZE <=? length (b ++ c)) = true).
  { apply Nat.leb_le. rewrite length_app. lia. }
  unfold HEADER_SIZE in Hl.
  rewrite Hlen, starts_magic_app, Hs by lia.
  rewrite (slice_app 2 4 b c) by lia. fold (total_size b).
  assert (Hnl : (length (b ++ c) <? total_size b) = false).
  { apply Nat.ltb_ge. rewrite length_app. lia. }
  rewrite Hnl, slice_app by lia.
  rewrite firstn_app, skipn_app.
  replace (total_size b - length b) with 0 by lia.
  now rewrite firstn_O, skipn_O, app_nil_r.
Qed.

(** Feeding more bytes: the frames of the whole are the frames of the
    first part followed by those of the left-over buffer and the rest. *)
Lemma run_app (b c : bytes) :
  fst (run (b ++ c)) = fst (run b) ++ fst (run (snd (run b) ++ c)).
Proof.
  remember (length b) as n eqn:Hn. revert b Hn.
  induction n as [n IH] using lt_wf_ind. intros b ->.
  destruct (run_cases b) as [Hl E|Hl Hs Ht E|Hl Hs Ht E|p Hl Hs Hp H1 H2 E|Hl Hs _ H0 E].
  - now rewrite E.
  - now rewrite E.
  - rewrite E, run_emit by assumption. cbn [fst snd app]. f_equal.
    apply (IH (length (skipn (total_size b) b))); [|reflexivity].
    rewrite length_skipn. unfold total_size, HEADER_SIZE in *. lia.
  - destruct (find_magic_some b p Hp) as (_ & Hm & _).
    rewrite run_resync, resync_app_magic, E by assumption.
    apply (IH (length (resync b))); [|reflexivity].
    rewrite <- H2, length_skipn. unfold HEADER_SIZE in *. lia.
  - rewrite E. cbn [fst snd app].
    rewrite run_resync, (run_resync (keep_last b ++ c)).
    now rewrite resync_app_none.
Qed.

Lemma add_data_run (self : Parser) (data : bytes) :
  add_data self data
  = (fst (run (buffer self ++ data)),
     {| buffer := snd (run (buffer self ++ data)) |}).
Proof.
  unfold add_data, run. cbv zeta.
  now destruct (parse_loop _ _ _).
Qed.

Lemma feed_run (chunks : list bytes) (b : bytes) :
  fst (run b) = [] ->
  fst (feed {| buffer := b |} chunks) = fst (run (b ++ concat chunks)).
Proof.
  revert b; induction chunks as [|c cs IH]; intros b Hb; cbn [feed concat].
  - now rewrite app_nil_r, Hb.
  - rewrite add_data_run. cbn [buffer].
    specialize (IH (snd (run (b ++ c))) (run_stable (b ++ c))).
    destruct (feed _ cs) as [f2 p2]. cbn [fst] in *.
    now rewrite IH, app_assoc, (run_app (b ++ c)).
Qed.

(** *** Construction *)

Lemma pack_H_ok (n : N) :
  (n <= 65535)%N ->
  exists hi lo, pack_H n = Some [hi; lo]
                /\ Byte.to_N hi = (n / 256)%N
                /\ Byte.to_N lo = (n mod 256)%N.
Proof.
  intros Hn. unfold pack_H. apply N.leb_le in Hn as Hb. rewrite Hb.
  assert (Hhi : (n / 256 <= 255)%N).
  { apply N.lt_succ_r. apply N.Div0.div_lt_upper_bound. lia. }
  assert (Hlo : (n mod 256 <= 255)%N).
  { apply N.lt_succ_r. apply N.mod_upper_bound. lia. }
  destruct (Byte.of_N (n / 256)) as [hi|] eqn:Ehi.
  2:{ apply Byte.of_N_None_iff in Ehi. lia. }
  destruct (Byte.of_N (n mod 256)) as [lo|] eqn:Elo.
  2:{ apply Byte.of_N_None_iff in Elo. lia. }
  exists hi, lo. repeat split; now apply Byte.to_of_N.
Qed.

Lemma build_ok (p : bytes) :
  (N.of_nat (length p) <= 65535)%N ->
  exists hi lo,
    build p = Some (x94 :: xc3 :: hi :: lo :: p)
    /\ (256 * Byte.to_N hi + Byte.to_N lo)%N = N.of_nat (length p).
Proof.
  intros H. destruct (pack_H_ok _ H) as (hi & lo & E & Hhi & Hlo).
  exists hi, lo. unfold build. rewrite E. split; [reflexivity|].
  rewrite Hhi, Hlo. symmetry. apply N.div_mod. lia.
Qed.

(** A well-formed frame at the head of the buffer is extracted whole. *)
Lemma run_frame (hi lo : byte) (p rest : bytes) :
  (256 * Byte.to_N hi + Byte.to_N lo)%N = N.of_nat (length p) ->
  run ((x94 :: xc3 :: hi :: lo :: p) ++ rest)
  = ((x94 :: xc3 :: hi :: lo :: p, p) :: fst (run rest), snd (run rest)).
Proof.
  intros H. set (b := x94 :: xc3 :: hi :: lo :: p).
  assert (Ht : total_size b = length b).
  { unfold total_size, b, slice, HEADER_SIZE. cbn [skipn firstn unpack_H Nat.sub].
    rewrite H, Nat2N.id. reflexivity. }
  rewrite run_emit.
  - rewrite Ht, skipn_all, firstn_all. cbn [app]. unfold slice, HEADER_SIZE, b.
    cbn [skipn]. cbn [length]. rewrite !Nat.sub_succ, Nat.sub_0_r, firstn_all.
    reflexivity.
  - unfold b, HEADER_SIZE. simpl. lia.
  - reflexivity.
  - lia.
Qed.

Lemma build_add_data (p : bytes) :
  (N.of_nat (length p) <= 65535)%N ->
  exists hi lo,
    (256 * Byte.to_N hi + Byte.to_N lo)%N = N.of_nat (length p)
    /\ build p = Some (MESHTASTIC_MAGIC ++ [hi; lo] ++ p)
    /\ add_data new_parser (MESHTASTIC_MAGIC ++ [hi; lo] ++ p)
       = ([(MESHTASTIC_MAGIC ++ [hi; lo] ++ p, p)], {| buffer := [] |}).
Proof.
  intros H. destruct (build_ok p H) as (hi & lo & Hb & Hl).
  exists hi, lo. repeat split; auto.
  rewrite add_data_run. cbn [buffer new_parser app MESHTASTIC_MAGIC].
  rewrite <- (app_nil_r (_ :: _)) at 1 2.
  rewrite run_frame by assumption. reflexivity.
Qed.

Lemma no_magic_tail (x : byte) (g : bytes) :
  ~ has_magic (x :: g) -> ~ has_magic g.
Proof.
  intros H (pre & post & E). apply H. exists (x :: pre), post.
  now rewrite E.
Qed.

Lemma no_magic_start (g : bytes) : ~ has_magic g -> starts_magic g = false.
Proof.
  intros H. destruct (starts_magic g) eqn:E; [|reflexivity].
  apply starts_magic_true in E as [r E]. exfalso. apply H.
  now exists [], r.
Qed.

Lemma find_magic_after_garbage (g r : bytes) :
  ~ has_magic g -> find_magic (g ++ x94 :: xc3 :: r) = Some (length g).
Proof.
  induction g as [|x g IH]; intros H; [reflexivity|].
  assert (Hs : starts_magic ((x :: g) ++ x94 :: xc3 :: r) = false).
  { destruct g as [|y g'].
    - destruct (starts_magic _) eqn:E; [|reflexivity].
      apply starts_magic_true in E as [r' E]. cbn [app] in E.
      injection E as _ E _. discriminate.
    - rewrite starts_magic_app by (simpl; lia). now apply no_magic_start. }
  cbn [app find_magic] in *. rewrite Hs.
  rewrite IH by (now apply no_magic_tail with x). reflexivity.
Qed.

Lemma find_magic_occurs (pre post : bytes) :
  find_magic (pre ++ MESHTASTIC_MAGIC ++ post) <> None.
Proof.
  induction pre as [|x pre IH]; [discriminate|].
  cbn [app find_magic]. destruct (starts_magic _); [discriminate|].
  destruct (find_magic _); [discriminate | contradiction].
Qed.

Lemma find_magic_none_no_magic (g : bytes) :
  find_magic g = None -> ~ has_magic g.
Proof.
  intros H (pre & post & ->). now apply (find_magic_occurs pre post).
Qed.

End FrameFacts.

(* ================================================================= *)
(** ** Facts about the string operations *)

Module PyStrFacts.
Import PyStr.

Lemma str_eqb_eq (a b : pystr) : str_eqb a b = true <-> a = b.
Proof.
  revert b; induction a as [|x a IH]; intros [|y b]; simpl; split;
    try congruence; try reflexivity.
  - intros H. apply andb_true_iff in H as [H1 H2].
    apply N.eqb_eq in H1. apply IH in H2. congruence.
  - intros H. injection H as -> ->. apply andb_true_iff. split.
    + apply N.eqb_refl.
    + now apply IH.
Qed.

Lemma lstrip_length (s : pystr) : length (lstrip s) <= length s.
Proof.
  induction s as [|c r IH]; simpl; [lia|].
  destruct (isspace c); simpl; lia.
Qed.

Lemma rstrip_length (s : pystr) : length (rstrip s) <= length s.
Proof.
  unfold rstrip. rewrite length_rev.
  pose proof (lstrip_length (rev s)) as H. now rewrite length_rev in H.
Qed.

Lemma strip_length (s : pystr) : length (strip s) <= length s.
Proof.
  unfold strip. pose proof (rstrip_length (lstrip s)).
  pose proof (lstrip_length s). lia.
Qed.

Lemma join_cons_length (sep w : pystr) (ws : list pystr) :
  length (join sep (w :: ws))
  <= length w + length sep + length (join sep ws).
Proof.
  destruct ws as [|w' ws]; cbn [join]; [simpl; lia|].
  rewrite !length_app. lia.
Qed.

Lemma split_from_length (s cur : pystr) :
  length (join (of_string " ") (split_from cur s)) <= length cur + length s.
Proof.
  revert cur; induction s as [|c r IH]; intros cur; cbn [split_from].
  - destruct cur; simpl; lia.
  - destruct (isspace c).
    + specialize (IH []). destruct cur as [|x cur'].
      * simpl in *. lia.
      * pose proof (join_cons_length (of_string " ") (x :: cur')
                      (split_from [] r)) as H.
        simpl in *. lia.
    + specialize (IH (cur ++ [c])). rewrite length_app in IH. simpl in *. lia.
Qed.

(** *** [rfind] returns the last occurrence inside the window *)

Lemma rfind_down_some (s sub : pystr) (start n i : nat) :
  rfind_down s sub start n = Some i ->
  start <= i < start + n /\ match_at s sub i = true
  /\ forall j, i < j < start + n -> match_at s sub j = false.
Proof.
  induction n as [|n IH]; cbn [rfind_down]; [discriminate|].
  destruct (match_at s sub (start + n)) eqn:E.
  - intros H; injection H as <-. split; [lia|]. split; [assumption|].
    intros j Hj. lia.
  - intros H. destruct (IH H) as (H1 & H2 & H3).
    split; [lia|]. split; [assumption|].
    intros j Hj. destruct (Nat.eq_dec j (start + n)) as [->|Hne]; auto.
    apply H3. lia.
Qed.


Lemma rfind_some (s sub : pystr) (start e i : nat) :
  rfind s sub start e = Some i ->
  start <= i /\ i + length sub <= Nat.min e (length s)
  /\ match_at s sub i = true
  /\ forall j, start <= j -> j + length sub <= Nat.min e (length s) ->
               match_at s sub j = true -> j <= i.
Proof.
  unfold rfind. cbv zeta.
  destruct (start + length sub <=? Nat.min e (length s)) eqn:El;
    [|discriminate].
  apply Nat.leb_le in El. intros H.
  destruct (rfind_down_some _ _ _ _ _ H) as (H1 & H2 & H3).
  split; [lia|]. split; [lia|]. split; [assumption|].
  intros j Hj1 Hj2 Hm. destruct (Nat.le_gt_cases j i) as [|Hgt]; auto.
  rewrite H3 in Hm by lia. discriminate.
Qed.


Lemma match_at_nth (s sub : pystr) (i k : nat) :
  match_at s sub i = true -> k < length sub ->
  nth_error s (i + k) = nth_error sub k.
Proof.
  unfold match_at, slice. intros H Hk. apply str_eqb_eq in H.
  rewrite <- H at 1. rewrite nth_error_firstn, nth_error_skipn.
  replace (i + length sub - i) with (length sub) by lia.
  apply Nat.ltb_lt in Hk. now rewrite Hk.
Qed.


Lemma max_list_in (l : list nat) : l <> [] -> In (max_list l) l.
Proof.
  induction l as [|y l IH]; [congruence|]. intros _. simpl.
  destruct l as [|z l'].
  - left. simpl. lia.
  - destruct (Nat.max_spec y (max_list (z :: l'))) as [[_ E]|[_ E]].
    + right. rewrite E. apply IH. discriminate.
    + left. now rewrite E.
Qed.

Lemma lstrip_spaces (ws : pystr) :
  Forall (fun c => isspace c = true) ws -> lstrip ws = [].
Proof.
  induction 1 as [|c ws Hc _ IH]; [reflexivity|]. simpl. now rewrite Hc.
Qed.

Lemma strip_spaces (ws : pystr) :
  Forall (fun c => isspace c = true) ws -> strip ws = [].
Proof. intros H. unfold strip. now rewrite lstrip_spaces. Qed.

Lemma startswith_app (p s : pystr) : startswith (p ++ s) p = true.
Proof.
  induction p as [|x p IH]; [now destruct s|]. simpl.
  now rewrite N.eqb_refl, IH.
Qed.

End PyStrFacts.

(* ================================================================= *)
(** ** Facts about the generator client *)

Module AIFacts.
Import PyStr AI.

Lemma candidates_in (s : pystr) (cutoff c : nat) :
  In c (candidates s cutoff) <->
  exists p idx, In p BOUNDARIES /\ rfind s p 0 cutoff = Some idx
                /\ c = idx + length (strip p).
Proof.
  unfold candidates. rewrite in_flat_map. split.
  - intros (p & Hp & Hc). destruct (rfind s p 0 cutoff) as [idx|] eqn:E;
      [|contradiction].
    destruct Hc as [<-|[]]. now exists p, idx.
  - intros (p & idx & Hp & E & ->). exists p. split; [assumption|].
    rewrite E. now left.
Qed.

Lemma candidates_bound (s : pystr) (cutoff c : nat) :
  In c (candidates s cutoff) -> c <= cutoff.
Proof.
  intros H. apply candidates_in in H as (p & idx & _ & E & ->).
  apply PyStrFacts.rfind_some in E as (_ & E & _).
  pose proof (PyStrFacts.strip_length p). lia.
Qed.

Lemma trim_upper (s : pystr) : length (_trim_to_max_chars s) <= max_chars.
Proof.
  unfold _trim_to_max_chars. cbv zeta.
  destruct (length (strip s) <=? max_chars) eqn:E.
  - now apply Nat.leb_le.
  - destruct (candidates (strip s) max_chars) as [|c cs] eqn:Ec.
    + pose proof (PyStrFacts.rstrip_length (firstn max_chars (strip s))).
      pose proof (firstn_le_length max_chars (strip s)). lia.
    + pose proof (PyStrFacts.strip_length
                    (firstn (max_list (c :: cs)) (strip s))).
      pose proof (firstn_le_length (max_list (c :: cs)) (strip s)).
      assert (max_list (c :: cs) <= max_chars).
      { apply candidates_bound with (strip s). rewrite Ec.
        apply PyStrFacts.max_list_in. discriminate. }
      lia.
Qed.


(** A boundary is the newline, of which [strip] keeps nothing, or has
    two characters or more, the second not a newline, of which [strip]
    keeps one. *)
Lemma boundary_shape (p : pystr) :
  In p BOUNDARIES ->
  (p = [NEWLINE] /\ length (strip p) = 0)
  \/ (length (strip p) = 1 /\ 2 <= length p
      /\ nth_error p 1 <> Some NEWLINE).
Proof.
  intros H. cbn [BOUNDARIES In] in H.
  destruct H as [<-|[<-|[<-|[<-|[<-|[]]]]]];
    [right|right|right|left|right];
    (split; [reflexivity|]); try reflexivity;
    (split; [apply Nat.leb_le; reflexivity | discriminate]).
Qed.




Lemma clean_length (s : pystr) :
  length (_clean_whitespace s) <= length s.
Proof.
  unfold _clean_whitespace, split.
  exact (PyStrFacts.split_from_length s []).
Qed.

Lemma ensure_upper (chat : chat_obj) (base first : pystr) :
  length (fst (_ensure_length_bounds chat base first)) <= max_chars.
Proof.
  unfold _ensure_length_bounds. cbv zeta.
  destruct (if length (_clean_whitespace first) <? min_chars then _ else _)
    as [t calls].
  cbn [fst]. destruct (max_chars <? length t) eqn:E.
  - apply trim_upper.
  - now apply Nat.ltb_ge.
Qed.

Lemma attempts_upper (cl : Client) (user_id contents : pystr)
  (attempts : list nat) (reply : pystr) :
  fst (attempts_loop cl user_id contents attempts) = Ok reply ->
  length reply <= max_chars.
Proof.
  induction attempts as [|a rest IH]; cbn [attempts_loop log_call fst].
  - intros H; injection H as <-. apply Nat.leb_le. reflexivity.
  - destruct (generate_content cl a contents) as [resp|e].
    + destruct (nonempty (strip (_extract_text resp))); [|exact IH].
      pose proof (ensure_upper (ChatUser user_id) contents
                    (strip (_extract_text resp))) as Hu.
      destruct (_ensure_length_bounds _ _ _) as [bounded calls].
      cbn [fst] in *. intros H; injection H as <-. exact Hu.
    + destruct (a <? max_retries - 1); [exact IH|discriminate].
Qed.

(** [chat_respond] hands its [user_id], a [str], to
    [_ensure_length_bounds] as the chat: [send_message] is never reached,
    every call it makes is a [generate_content]. *)
Lemma ensure_user_calls (user_id base first : pystr) :
  snd (_ensure_length_bounds (ChatUser user_id) base first) = [].
Proof.
  unfold _ensure_length_bounds. cbv zeta.
  now destruct (length (_clean_whitespace first) <? min_chars).
Qed.

Lemma attempts_calls (cl : Client) (user_id contents : pystr)
  (attempts : list nat) :
  Forall (fun c => c = GenerateContent contents)
         (snd (attempts_loop cl user_id contents attempts)).
Proof.
  induction attempts as [|a rest IH]; cbn [attempts_loop log_call snd];
    constructor; [reflexivity|].
  destruct (generate_content cl a contents) as [resp|e].
  - destruct (nonempty (strip (_extract_text resp))); [|exact IH].
    pose proof (ensure_user_calls user_id contents
                  (strip (_extract_text resp))) as Hc.
    destruct (_ensure_length_bounds _ _ _) as [bounded calls].
    cbn [snd] in *. rewrite Hc. constructor.
  - destruct (a <? max_retries - 1); [exact IH | constructor].
Qed.

End AIFacts.

(* ================================================================= *)
(** ** Properties of the frame codec *)

Import Frame.

(** C1 -- round trip: for a payload [p] of at most 65535 bytes, [build p]
    is the magic, the big-endian 16-bit length and [p]; one [add_data] call
    of a fresh parser on it returns exactly the pair [(build p, p)] and
    leaves the buffer empty. *)
Theorem frame_roundtrip (p : bytes) :
  (N.of_nat (length p) <= 65535)%N ->
  exists hi lo,
    (256 * Byte.to_N hi + Byte.to_N lo)%N = N.of_nat (length p)
    /\ build p = Some (MESHTASTIC_MAGIC ++ [hi; lo] ++ p)
    /\ add_data new_parser (MESHTASTIC_MAGIC ++ [hi; lo] ++ p)
       = ([(MESHTASTIC_MAGIC ++ [hi; lo] ++ p, p)], {| buffer := [] |}).
Proof.
  intros H. destruct (FrameFacts.build_ok p H) as (hi & lo & Hb & Hl).
  exists hi, lo. split; [exact Hl|]. split; [exact Hb|].
  rewrite FrameFacts.add_data_run. cbn [buffer new_parser app MESHTASTIC_MAGIC].
  rewrite <- (app_nil_r (_ :: _)) at 1 2.
  rewrite FrameFacts.run_frame by assumption. reflexivity.
Qed.

Lemma frame_roundtrip_witness :
  (N.of_nat (length [x41; x42; x43]) <= 65535)%N
  /\ exists hi lo,
      (256 * Byte.to_N hi + Byte.to_N lo)%N = 3%N
      /\ build [x41; x42; x43]
         = Some (MESHTASTIC_MAGIC ++ [hi; lo] ++ [x41; x42; x43])
      /\ add_data new_parser (MESHTASTIC_MAGIC ++ [hi; lo] ++ [x41; x42; x43])
         = ([(MESHTASTIC_MAGIC ++ [hi; lo] ++ [x41; x42; x43],
              [x41; x42; x43])], {| buffer := [] |}).
Proof.
  split; [vm_compute; discriminate|].
  apply (frame_roundtrip [x41; x42; x43]). vm_compute; discriminate.
Defined.

(** C2 -- resynchronisation: when [garbage] holds no occurrence of the
    pair [0x94 0xC3] and [p] has at most 65535 bytes, one [add_data] call of
    a fresh parser on [garbage ++ build p] returns exactly one frame, with
    payload [p]; the garbage is dropped and nothing stays buffered. *)
Theorem frame_resync (garbage p : bytes) :
  (N.of_nat (length p) <= 65535)%N ->
  ~ has_magic garbage ->
  exists fr,
    build p = Some fr
    /\ add_data new_parser (garbage ++ fr) = ([(fr, p)], {| buffer := [] |}).
Proof.
  intros H Hg. destruct (FrameFacts.build_ok p H) as (hi & lo & Hb & Hl).
  exists (x94 :: xc3 :: hi :: lo :: p). split; [assumption|].
  rewrite FrameFacts.add_data_run. cbn [buffer new_parser app].
  pose proof (FrameFacts.run_frame hi lo p [] Hl) as Hr.
  rewrite app_nil_r in Hr. change (run []) with (@nil frame, @nil byte) in Hr.
  cbn [fst snd] in Hr.
  enough (Hrun : run (garbage ++ x94 :: xc3 :: hi :: lo :: p)
                 = ([(x94 :: xc3 :: hi :: lo :: p, p)], []))
    by (now rewrite Hrun).
  destruct garbage as [|x g]; [exact Hr|].
  rewrite FrameFacts.run_eq.
  assert (Hlen : (HEADER_SIZE <=? length ((x :: g) ++ x94 :: xc3 :: hi :: lo :: p))
                 = true).
  { apply Nat.leb_le. rewrite length_app. unfold HEADER_SIZE. simpl. lia. }
  rewrite Hlen, (FrameFacts.find_magic_after_garbage (x :: g)) by assumption.
  assert (Hs : starts_magic ((x :: g) ++ x94 :: xc3 :: hi :: lo :: p) = false).
  { destruct g as [|y g'].
    - destruct (starts_magic _) eqn:E; [|reflexivity].
      apply FrameFacts.starts_magic_true in E as [r' E]. cbn [app] in E.
      injection E as _ E _. discriminate.
    - rewrite FrameFacts.starts_magic_app by (simpl; lia).
      now apply FrameFacts.no_magic_start. }
  rewrite Hs, skipn_app, skipn_all, Nat.sub_diag. exact Hr.
Qed.

Lemma frame_resync_witness :
  (N.of_nat (length [x5a]) <= 65535)%N
  /\ ~ has_magic [x00; xff; x94]
  /\ exists fr,
      build [x5a] = Some fr
      /\ add_data new_parser ([x00; xff; x94] ++ fr)
         = ([(fr, [x5a])], {| buffer := [] |}).
Proof.
  assert (Hg : ~ has_magic [x00; xff; x94])
    by (apply FrameFacts.find_magic_none_no_magic; reflexivity).
  split; [vm_compute; discriminate|]. split; [exact Hg|].
  apply (frame_resync [x00; xff; x94] [x5a]);
    [vm_compute; discriminate | exact Hg].
Defined.

(** C3 -- incrementality: feeding the chunks of any byte sequence one
    after the other to one parser returns, in order, the same
    [(raw_frame, payload)] pairs as a single [add_data] call of a fresh
    parser on their concatenation. *)
Theorem frame_incremental (chunks : list bytes) :
  fst (feed new_parser chunks)
  = fst (add_data new_parser (concat chunks)).
Proof.
  rewrite FrameFacts.add_data_run. cbn [fst buffer new_parser].
  now apply (FrameFacts.feed_run chunks []).
Qed.

(** The two framing scenarios: a frame over two chunks, and a frame
    after two bytes of garbage. *)
Example s1 :
  fst (Frame.feed Frame.new_parser [[x94; xc3; x00; x03]; [x41; x42; x43]])
  = [([x94; xc3; x00; x03; x41; x42; x43], [x41; x42; x43])].
Proof. reflexivity. Qed.

Example s2 :
  fst (Frame.add_data Frame.new_parser [x00; xff; x94; xc3; x00; x01; x5a])
  = [([x94; xc3; x00; x01; x5a], [x5a])].
Proof. reflexivity. Qed.

(* ================================================================= *)
(** ** Properties of the generator client *)

Import PyStr AI Demo.




(* ================================================================= *)
(** ** Facts about the broker *)

Module ProxyFacts.
Import Frame PyStr AI Proxy.

Lemma write_all_spec (data : bytes) (exclude_id : option nat)
  (items : list (nat * ClientConnection)) :
  forall (st : MultiClientProxy) (disconnected : list nat),
    clients_lock st = true ->
    let r := write_all st data exclude_id items disconnected in
    trace (fst r)
    = trace st
      ++ map (fun c => ClientWrite (fst c) data true
                                   (negb (write_raises (writer (snd c)))))
             (filter (fun c => negb (excluded exclude_id (fst c))) items)
    /\ clients_lock (fst r) = true.
Proof.
  induction items as [|[client_id client] items IH]; intros st disc Hl;
    cbn [write_all filter map fst snd].
  - now rewrite app_nil_r.
  - destruct (excluded exclude_id client_id); cbn [negb map fst snd].
    + now apply IH.
    + rewrite Hl. destruct (write_raises (writer client)); cbn [negb].
      * destruct (IH (log st [ClientWrite client_id data true false])
                     (disc ++ [client_id]) Hl) as [H1 H2].
        split; [|exact H2]. rewrite H1. cbn [log trace].
        now rewrite <- app_assoc.
      * destruct (IH (log st [ClientWrite client_id data true true])
                     disc Hl) as [H1 H2].
        split; [|exact H2]. rewrite H1. cbn [log trace].
        now rewrite <- app_assoc.
Qed.

(** With [clients_lock] held by the caller, the clean-up loop either has
    nothing to do or waits for the lock for ever; the state stays. *)
Lemma remove_all_locked (st : MultiClientProxy) (ids : list nat) :
  clients_lock st = true ->
  remove_all st ids = match ids with [] => Done tt st | _ => Blocked st end.
Proof.
  intros Hl. destruct ids as [|i ids]; [reflexivity|].
  cbn [remove_all]. unfold _remove_client. now rewrite Hl.
Qed.

(** A failed client write leaves [broadcast_to_clients] waiting in
    [_remove_client] for the lock it holds itself. *)
Remark broadcast_blocked (st : MultiClientProxy) (data : bytes)
  (exclude_id : option nat) :
  clients_lock st = false ->
  snd (write_all (set_clients_lock st true) data exclude_id (clients st) [])
  <> [] ->
  exists st', broadcast_to_clients st data exclude_id = Blocked st'.
Proof.
  intros Hl Hd. unfold broadcast_to_clients. rewrite Hl.
  pose proof (write_all_spec data exclude_id (clients st)
                (set_clients_lock st true) [] eq_refl) as H.
  cbv zeta in H. cbn [clients set_clients_lock] in *.
  destruct (write_all _ data exclude_id (clients st) []) as [st1 disc].
  cbn [fst snd] in *. destruct H as [_ H2].
  rewrite remove_all_locked by assumption.
  destruct disc; [contradiction|]. now exists st1.
Qed.

Lemma broadcast_trace (st : MultiClientProxy) (data : bytes)
  (exclude_id : option nat) :
  clients_lock st = false ->
  trace (state_of (broadcast_to_clients st data exclude_id))
  = trace st ++ client_writes st data exclude_id.
Proof.
  intros Hl. unfold broadcast_to_clients. rewrite Hl.
  pose proof (write_all_spec data exclude_id (clients st)
                (set_clients_lock st true) [] eq_refl) as H.
  cbv zeta in H. cbn [clients set_clients_lock] in *.
  destruct (write_all _ data exclude_id (clients st) []) as [st1 disc].
  cbn [fst] in H. destruct H as [H1 H2].
  rewrite remove_all_locked by assumption.
  destruct disc; cbn [bind state_of set_clients_lock trace]; exact H1.
Qed.

Lemma send_to_radio_spec (st : MultiClientProxy) (data : bytes) :
  radio_lock st = false ->
  exists ok, send_to_radio st data = Done ok (log st (radio_events st data)).
Proof.
  intros Hl. unfold send_to_radio, radio_events. rewrite Hl.
  destruct (radio_writer st) as [w|].
  - destruct (write_raises w); [now exists false | now exists true].
  - exists false. unfold log. rewrite app_nil_r. now destruct st.
Qed.




Section Interception.

Variable TEXT_MESSAGE_APP : Z.
Variable parse_to_radio : bytes -> option ToRadio.
Variable parse_from_radio : bytes -> option FromRadio.
Variable decode_utf8_ignore : bytes -> pystr.

Local Abbreviation intercept_ :=
  (intercept TEXT_MESSAGE_APP parse_to_radio parse_from_radio
             decode_utf8_ignore).


End Interception.

End ProxyFacts.

(* ================================================================= *)
(** ** Properties of the interceptor and the broker *)

Import Proxy.

(** C6, as the claim states it (for every message, whatever the
    configuration): without an AI handler the message ["/gem"] gets the
    not-available diagnostic, not the empty-prompt one. *)
Lemma empty_prompt_counterexample :
  fst (process_message {| ai_handler := None |} (of_string "client") GEM)
  = Some NOT_AVAILABLE
  /\ fst (process_message {| ai_handler := None |} (of_string "client") GEM)
     <> Some NO_QUESTION.
Proof. split; [reflexivity | discriminate]. Qed.

(** C6 -- empty prompt, amended: when an AI handler is configured, for
    ["/gem"] followed by nothing or only by whitespace [process_message]
    returns ["[Please provide a question after /gem]"] and makes no call
    to the generator. *)
Theorem empty_prompt (self : GeminiIntegration) (handler : AIHandler)
  (sender_id ws : pystr) :
  ai_handler self = Some handler ->
  Forall (fun c => isspace c = true) ws ->
  process_message self sender_id (GEM ++ ws) = (Some NO_QUESTION, []).
Proof.
  intros Hh Hws. unfold process_message.
  rewrite PyStrFacts.startswith_app, Hh. cbn [negb].
  change (skipn 4 (GEM ++ ws)) with ws.
  now rewrite PyStrFacts.strip_spaces.
Qed.

Lemma empty_prompt_witness :
  process_message {| ai_handler := Some demo_handler |} (of_string "client")
                  (GEM ++ of_string "   ")
  = (Some NO_QUESTION, []).
Proof.
  apply (empty_prompt {| ai_handler := Some demo_handler |} demo_handler).
  - reflexivity.
  - repeat constructor.
Defined.

(** C10 -- diagnostic precedence: without an AI handler every message
    that begins with ["/gem"], an empty remainder included, gets
    ["[Gemini AI not available - GEMINI_API_KEY not set]"] and no generator
    call; and [process_message] answers
    ["[Please provide a question after /gem]"] only when a handler is
    configured. *)
Theorem diagnostic_precedence :
  (forall self sender_id message,
      ai_handler self = None ->
      startswith message GEM = true ->
      process_message self sender_id message = (Some NOT_AVAILABLE, []))
  /\ (forall self sender_id message,
        fst (process_message self sender_id message) = Some NO_QUESTION ->
        ai_handler self <> None).
Proof.
  split.
  - intros self sender_id message Hh Hs. unfold process_message.
    now rewrite Hs, Hh.
  - intros self sender_id message H Hh. unfold process_message in H.
    rewrite Hh in H. destruct (startswith message GEM); discriminate.
Qed.

Lemma diagnostic_precedence_witness :
  process_message {| ai_handler := None |} (of_string "!0000abcd") GEM
  = (Some NOT_AVAILABLE, [])
  /\ ai_handler {| ai_handler := Some demo_handler |} <> None.
Proof.
  destruct diagnostic_precedence as [A B]. split.
  - apply A; reflexivity.
  - apply (B _ (of_string "client") (GEM ++ of_string " ")). reflexivity.
Defined.

(** C8, as the claim states it: a failed write inside [send_to_radio]
    clears [radio_connected] and spawns a reconnect task, as the read loop
    does at end of file. With the radio socket broken, [send_to_radio]
    returns [False] and leaves the latch set and no task created. *)
Lemma write_failure_counterexample :
  send_to_radio (demo_proxy demo_broken_writer []) [x01]
  = Done false (log (demo_proxy demo_broken_writer []) [RadioWrite [x01] false])
  /\ radio_connected
       (state_of (send_to_radio (demo_proxy demo_broken_writer []) [x01]))
     = true
  /\ ~ In (CreateTask ReconnectToRadio)
          (trace (state_of (send_to_radio (demo_proxy demo_broken_writer [])
                                          [x01])))
  /\ radio_connected (radio_lost (demo_proxy demo_broken_writer [])) = false
  /\ In (CreateTask ReconnectToRadio)
        (trace (radio_lost (demo_proxy demo_broken_writer []))).
Proof.
  split; [reflexivity|]. split; [reflexivity|]. split; [|split].
  - intros [H|[]]. discriminate.
  - reflexivity.
  - left. reflexivity.
Qed.

(** C8 -- write failure, amended: when the write to the radio socket
    fails inside [send_to_radio], the call returns failure to its caller
    and nothing else changes: [radio_connected] keeps its value and no
    task is created (recovery is left to the read loop). *)
Theorem write_failure (st : MultiClientProxy) (data : bytes)
  (w : StreamWriter) :
  radio_lock st = false ->
  radio_writer st = Some w ->
  write_raises w = true ->
  send_to_radio st data = Done false (log st [RadioWrite data false])
  /\ radio_connected (state_of (send_to_radio st data)) = radio_connected st
  /\ radio_writer (state_of (send_to_radio st data)) = radio_writer st
  /\ forall t, In (CreateTask t) (trace (state_of (send_to_radio st data))) ->
               In (CreateTask t) (trace st).
Proof.
  intros Hl Hw Hr. unfold send_to_radio. rewrite Hl, Hw, Hr.
  cbn [state_of log radio_connected radio_writer trace].
  split; [reflexivity|]. split; [reflexivity|]. split; [now rewrite Hw|].
  intros t H. apply in_app_or in H as [H|[H|[]]];
    [assumption | discriminate].
Qed.

Lemma write_failure_witness :
  send_to_radio (demo_proxy demo_broken_writer []) [x01]
  = Done false (log (demo_proxy demo_broken_writer []) [RadioWrite [x01] false])
  /\ radio_connected
       (state_of (send_to_radio (demo_proxy demo_broken_writer []) [x01]))
     = radio_connected (demo_proxy demo_broken_writer [])
  /\ radio_writer
       (state_of (send_to_radio (demo_proxy demo_broken_writer []) [x01]))
     = radio_writer (demo_proxy demo_broken_writer [])
  /\ forall t,
       In (CreateTask t)
          (trace (state_of (send_to_radio (demo_proxy demo_broken_writer [])
                                          [x01]))) ->
       In (CreateTask t) (trace (demo_proxy demo_broken_writer [])).
Proof.
  apply (write_failure (demo_proxy demo_broken_writer []) [x01]
                       demo_broken_writer); reflexivity.
Defined.

(** C9, as the claim states it: [clients_lock] is never held while a
    client socket is written. With one client connected, the write of
    [broadcast_to_clients] happens with the lock held. *)
Lemma broadcast_lock_counterexample :
  In (ClientWrite 1 [x01] true true)
     (trace (state_of (broadcast_to_clients
                         (demo_proxy (demo_writer 0) [(1, demo_client 1)])
                         [x01] None))).
Proof. left. reflexivity. Qed.

(** C9 -- lock discipline, amended: [broadcast_to_clients] takes
    [clients_lock] once and performs every client write inside it: the
    writes go, in registry order, to every client that is not excluded,
    each while the lock is held. *)
Theorem broadcast_lock_held (st : MultiClientProxy) (data : bytes)
  (exclude_id : option nat) :
  clients_lock st = false ->
  trace (state_of (broadcast_to_clients st data exclude_id))
  = trace st ++ client_writes st data exclude_id
  /\ forall client_id d held ok,
       In (ClientWrite client_id d held ok) (client_writes st data exclude_id)
       -> held = true.
Proof.
  intros Hl. split; [now apply ProxyFacts.broadcast_trace|].
  intros client_id d held ok H. unfold client_writes in H.
  apply in_map_iff in H as (c & E & _). now injection E as _ _ <- _.
Qed.

Lemma broadcast_lock_held_witness :
  trace (state_of (broadcast_to_clients
                     (demo_proxy (demo_writer 0)
                                 [(1, demo_client 1); (2, demo_client 2)])
                     [x01] (Some 2)))
  = [ClientWrite 1 [x01] true true]
  /\ forall client_id d held ok,
       In (ClientWrite client_id d held ok)
          (client_writes (demo_proxy (demo_writer 0)
                                     [(1, demo_client 1); (2, demo_client 2)])
                         [x01] (Some 2))
       -> held = true.
Proof.
  apply (broadcast_lock_held
           (demo_proxy (demo_writer 0) [(1, demo_client 1); (2, demo_client 2)])
           [x01] (Some 2)).
  reflexivity.
Defined.

Section Codec.

Variable TEXT_MESSAGE_APP : Z.
Variable serialize_to_radio : ToRadio -> bytes.
Variable serialize_from_radio : FromRadio -> bytes.
Variable parse_to_radio : bytes -> option ToRadio.
Variable parse_from_radio : bytes -> option FromRadio.
Variable decode_utf8_ignore : bytes -> pystr.

Local Abbreviation try_parse :=
  (try_parse_text_message TEXT_MESSAGE_APP parse_to_radio parse_from_radio
                          decode_utf8_ignore).
Local Abbreviation intercept_ :=
  (intercept TEXT_MESSAGE_APP parse_to_radio parse_from_radio
             decode_utf8_ignore).
Local Abbreviation handle_client_data_ :=
  (handle_client_data TEXT_MESSAGE_APP parse_to_radio parse_from_radio
                      decode_utf8_ignore).
Local Abbreviation send_ai_response_ :=
  (send_ai_response TEXT_MESSAGE_APP serialize_to_radio serialize_from_radio).



End Codec.




(* ================================================================= *)
(** ** More on the frame codec *)

Module FrameMore.
Import Frame FrameObs FrameFacts.

Lemma pack_unpack (hi lo : byte) :
  pack_H (unpack_H [hi; lo]) = Some [hi; lo]
  /\ (unpack_H [hi; lo] <= 65535)%N.
Proof.
  cbn [unpack_H]. pose proof (Byte.to_N_bounded hi) as Hh.
  pose proof (Byte.to_N_bounded lo) as Hl.
  assert (Hle : (256 * to_N hi + to_N lo <= 65535)%N) by lia.
  split; [|exact Hle]. unfold pack_H. apply N.leb_le in Hle. rewrite Hle.
  assert (Hd : ((256 * to_N hi + to_N lo) / 256 = to_N hi)%N).
  { symmetry. apply N.div_unique with (to_N lo); lia. }
  assert (Hm : ((256 * to_N hi + to_N lo) mod 256 = to_N lo)%N).
  { symmetry. apply N.mod_unique with (to_N hi); lia. }
  now rewrite Hd, Hm, !Byte.of_to_N.
Qed.

Lemma starts_magic_header (b : bytes) :
  HEADER_SIZE <= length b -> starts_magic b = true ->
  exists hi lo rest, b = x94 :: xc3 :: hi :: lo :: rest.
Proof.
  intros Hl Hs. apply starts_magic_true in Hs as [r ->].
  destruct r as [|hi [|lo rest]]; unfold HEADER_SIZE in Hl; simpl in Hl;
    try lia.
  now exists hi, lo, rest.
Qed.

(** The frame a loop iteration emits is [build] of its payload. *)
Lemma emitted_well_formed (b : bytes) :
  HEADER_SIZE <= length b -> starts_magic b = true ->
  total_size b <= length b ->
  build (slice HEADER_SIZE (total_size b) b) = Some (firstn (total_size b) b).
Proof.
  intros Hl Hs Ht.
  destruct (starts_magic_header b Hl Hs) as (hi & lo & rest & ->).
  unfold total_size, slice, HEADER_SIZE in *.
  cbn [skipn firstn Nat.sub] in *.
  destruct (pack_unpack hi lo) as [Hp _].
  set (n := N.to_nat (unpack_H [hi; lo])) in *.
  replace (4 + n - 4) with n by lia. cbn [Nat.add firstn].
  unfold build. rewrite length_firstn.
  cbn [length] in Ht. rewrite Nat.min_l by lia.
  unfold n. rewrite N2Nat.id, Hp. reflexivity.
Qed.

Lemma run_well_formed (b : bytes) : Forall well_formed (fst (run b)).
Proof.
  remember (length b) as n eqn:Hn. revert b Hn.
  induction n as [n IH] using lt_wf_ind. intros b ->.
  destruct (run_cases b) as [Hl E|Hl Hs Ht E|Hl Hs Ht E|p Hl Hs Hp H1 H2 E|Hl Hs _ _ E];
    rewrite E; cbn [fst]; try constructor.
  - now apply emitted_well_formed.
  - apply (IH (length (skipn (total_size b) b))); [|reflexivity].
    rewrite length_skipn. unfold total_size, HEADER_SIZE in *. lia.
  - apply (IH (length (resync b))); [|reflexivity].
    rewrite <- H2, length_skipn. unfold HEADER_SIZE in *. lia.
Qed.

(** What [add_data] leaves in the buffer, it leaves again. *)
Lemma run_quiet (b : bytes) : run (snd (run b)) = ([], snd (run b)).
Proof.
  remember (length b) as n eqn:Hn. revert b Hn.
  induction n as [n IH] using lt_wf_ind. intros b ->.
  destruct (run_cases b) as [Hl E|Hl Hs Ht E|Hl Hs Ht E|p Hl Hs Hp H1 H2 E|Hl Hs _ _ E].
  - now rewrite E at 1 2; cbn [snd].
  - now rewrite E at 1 2; cbn [snd].
  - rewrite E. cbn [snd]. apply (IH (length (skipn (total_size b) b)));
      [|reflexivity].
    rewrite length_skipn. unfold total_size, HEADER_SIZE in *. lia.
  - rewrite E. apply (IH (length (resync b))); [|reflexivity].
    rewrite <- H2, length_skipn. unfold HEADER_SIZE in *. lia.
  - rewrite E. cbn [snd]. apply run_short.
    unfold keep_last. destruct (_ && _); [|simpl; unfold HEADER_SIZE; lia].
    rewrite length_skipn. unfold HEADER_SIZE in *. lia.
Qed.

(** The input is some bytes, of which the frames are part, followed by the
    buffer that is left. *)
Lemma run_accounts (b : bytes) :
  exists pre, b = pre ++ snd (run b)
              /\ raw_length (fst (run b)) <= length pre.
Proof.
  remember (length b) as n eqn:Hn. revert b Hn.
  induction n as [n IH] using lt_wf_ind. intros b ->.
  destruct (run_cases b) as [Hl E|Hl Hs Ht E|Hl Hs Ht E|p Hl Hs Hp H1 H2 E|Hl Hs _ _ E].
  - exists []. rewrite E. split; [reflexivity | unfold raw_length; simpl; lia].
  - exists []. rewrite E. split; [reflexivity | unfold raw_length; simpl; lia].
  - destruct (IH (length (skipn (total_size b) b))) with
      (b := skipn (total_size b) b) as (pre & Hpre & Hlen); [|reflexivity|].
    { rewrite length_skipn. unfold total_size, HEADER_SIZE in *. lia. }
    exists (firstn (total_size b) b ++ pre). rewrite E. cbn [fst snd].
    split.
    + rewrite <- app_assoc, <- Hpre. now rewrite firstn_skipn.
    + unfold raw_length, list_sum in *. cbn [map fold_right fst].
      rewrite length_app. lia.
  - destruct (IH (length (resync b))) with (b := resync b)
      as (pre & Hpre & Hlen); [|reflexivity|].
    { rewrite <- H2, length_skipn. unfold HEADER_SIZE in *. lia. }
    exists (firstn p b ++ pre). rewrite E. split.
    + rewrite <- app_assoc, <- Hpre, <- H2. now rewrite firstn_skipn.
    + rewrite length_app. lia.
  - rewrite E. cbn [fst snd]. unfold keep_last.
    destruct (_ && _).
    + exists (firstn (length b - 1) b). split;
        [now rewrite firstn_skipn | unfold raw_length; simpl; lia].
    + exists b. split; [now rewrite app_nil_r | unfold raw_length; simpl; lia].
Qed.

Lemma find_magic_has_magic (b : bytes) (p : nat) :
  find_magic b = Some p -> has_magic b.
Proof.
  intros H. destruct (find_magic_some b p H) as (H1 & H2 & _).
  apply starts_magic_true in H2 as [r Hr].
  exists (firstn p b), r. rewrite <- (firstn_skipn p b) at 1.
  now rewrite H1, Hr.
Qed.

Lemma run_garbage (b : bytes) :
  ~ has_magic b ->
  fst (run b) = []
  /\ length (snd (run b)) <= 3
  /\ (HEADER_SIZE <= length b -> length (snd (run b)) <= 1).
Proof.
  intros Hg. pose proof (no_magic_start b Hg) as Hns.
  destruct (run_cases b) as [Hl E|Hl Hs Ht E|Hl Hs Ht E|p Hl Hs Hp H1 H2 E|Hl Hs _ _ E];
    try congruence.
  - rewrite E. cbn [fst snd]. unfold HEADER_SIZE in *. repeat split; lia.
  - exfalso. apply Hg. now apply find_magic_has_magic with p.
  - rewrite E. cbn [fst snd]. unfold keep_last.
    destruct (_ && _); [rewrite length_skipn|]; simpl; repeat split; lia.
Qed.

Lemma build_shape (p fr : bytes) :
  build p = Some fr ->
  exists hi lo, fr = x94 :: xc3 :: hi :: lo :: p
                /\ (256 * Byte.to_N hi + Byte.to_N lo)%N = N.of_nat (length p).
Proof.
  intros Hb. assert (Hl : (N.of_nat (length p) <= 65535)%N).
  { unfold build, pack_H in Hb.
    destruct (N.of_nat (length p) <=? 65535)%N eqn:E; [|discriminate].
    now apply N.leb_le. }
  destruct (build_ok p Hl) as (hi & lo & Hb' & Hlen).
  rewrite Hb in Hb'. injection Hb' as ->. now exists hi, lo.
Qed.

Lemma run_frames (ps frs : list bytes) :
  Forall2 (fun p fr => build p = Some fr) ps frs ->
  run (concat frs) = (combine frs ps, []).
Proof.
  induction 1 as [|p fr ps frs Hb _ IH]; [reflexivity|].
  destruct (build_shape p fr Hb) as (hi & lo & -> & Hlen).
  cbn [concat combine]. rewrite run_frame by assumption.
  now rewrite IH.
Qed.

End FrameMore.

Import FrameObs.

(** X1 -- [build] fails ([struct.error]) exactly on a payload of more
    than 65535 bytes; otherwise the frame is four bytes longer than the
    payload. *)
Theorem build_oversized (p : bytes) :
  (build p = None <-> (65535 < N.of_nat (length p))%N)
  /\ forall fr, build p = Some fr -> length fr = 4 + length p.
Proof.
  split.
  - unfold build, pack_H. split.
    + intros H. destruct (N.of_nat (length p) <=? 65535)%N eqn:E.
      * apply N.leb_le in E.
        destruct (FrameFacts.pack_H_ok _ E) as (hi & lo & Hp & _).
        unfold pack_H in Hp. apply N.leb_le in E. rewrite E in Hp.
        rewrite Hp in H. discriminate.
      * now apply N.leb_gt in E.
    + intros H. apply N.leb_gt in H. now rewrite H.
  - intros fr Hb. destruct (FrameMore.build_shape p fr Hb) as (hi & lo & -> & _).
    reflexivity.
Qed.

(** X2 -- every pair [add_data] returns, from any parser state and any
    input, is a frame [build] makes: the raw frame is [build] of the
    payload (magic, big-endian length of the payload, payload). *)
Theorem add_data_well_formed (self : Parser) (data : bytes) :
  Forall well_formed (fst (add_data self data)).
Proof.
  rewrite FrameFacts.add_data_run. cbn [fst]. apply FrameMore.run_well_formed.
Qed.

(** X3 -- a chunk made of several frames one after the other gives all
    of them, in order, and leaves the buffer empty. *)
Theorem add_data_many (ps frs : list bytes) :
  Forall2 (fun p fr => build p = Some fr) ps frs ->
  add_data new_parser (concat frs) = (combine frs ps, {| buffer := [] |}).
Proof.
  intros H. rewrite FrameFacts.add_data_run. cbn [buffer new_parser app].
  now rewrite (FrameMore.run_frames ps frs H).
Qed.

Lemma add_data_many_witness :
  add_data new_parser
    (concat [[x94; xc3; x00; x01; x41]; [x94; xc3; x00; x00];
             [x94; xc3; x00; x02; x42; x43]])
  = (combine [[x94; xc3; x00; x01; x41]; [x94; xc3; x00; x00];
              [x94; xc3; x00; x02; x42; x43]]
             [[x41]; []; [x42; x43]],
     {| buffer := [] |}).
Proof.
  apply (add_data_many [[x41]; []; [x42; x43]]).
  repeat constructor.
Defined.

(** X4 -- a frame cut anywhere: the first part alone gives no frame and is
    kept in the buffer; the second part, given to the same parser,
    completes the frame and empties the buffer. *)
Theorem add_data_split_frame (p fr : bytes) (k : nat) :
  build p = Some fr ->
  k < length fr ->
  add_data new_parser (firstn k fr) = ([], {| buffer := firstn k fr |})
  /\ add_data {| buffer := firstn k fr |} (skipn k fr)
     = ([(fr, p)], {| buffer := [] |}).
Proof.
  intros Hb Hk. split.
  - rewrite FrameFacts.add_data_run. cbn [buffer new_parser app].
    enough (H : run (firstn k fr) = ([], firstn k fr)) by now rewrite H.
    destruct (FrameMore.build_shape p fr Hb) as (hi & lo & -> & Hlen).
    destruct (Nat.lt_ge_cases k HEADER_SIZE) as [Hs|Hs].
    + apply FrameFacts.run_short. rewrite length_firstn. lia.
    + unfold HEADER_SIZE in Hs.
      destruct k as [|[|[|[|k]]]]; try lia. cbn [firstn].
      rewrite FrameFacts.run_eq. cbn [length].
      change (HEADER_SIZE <=? S (S (S (S (length (firstn k p)))))) with true.
      change (starts_magic (x94 :: xc3 :: hi :: lo :: firstn k p)) with true.
      cbv zeta. unfold slice. cbn [skipn firstn Nat.sub unpack_H].
      rewrite Hlen, Nat2N.id, length_firstn.
      cbn [length] in Hk.
      assert (Hlt : (S (S (S (S (Nat.min k (length p)))))
                     <? HEADER_SIZE + length p) = true).
      { apply Nat.ltb_lt. unfold HEADER_SIZE. lia. }
      now rewrite Hlt.
  - rewrite FrameFacts.add_data_run. cbn [buffer]. rewrite firstn_skipn.
    destruct (FrameMore.build_shape p fr Hb) as (hi & lo & -> & Hlen).
    rewrite <- (app_nil_r (_ :: _)) at 1 2.
    now rewrite FrameFacts.run_frame.
Qed.

Lemma add_data_split_frame_witness :
  add_data new_parser (firstn 5 [x94; xc3; x00; x03; x41; x42; x43])
  = ([], {| buffer := firstn 5 [x94; xc3; x00; x03; x41; x42; x43] |})
  /\ add_data {| buffer := firstn 5 [x94; xc3; x00; x03; x41; x42; x43] |}
              (skipn 5 [x94; xc3; x00; x03; x41; x42; x43])
     = ([([x94; xc3; x00; x03; x41; x42; x43], [x41; x42; x43])],
        {| buffer := [] |}).
Proof.
  apply (add_data_split_frame [x41; x42; x43]
           [x94; xc3; x00; x03; x41; x42; x43] 5).
  - reflexivity.
  - apply Nat.ltb_lt. reflexivity.
Defined.

(** X5 -- on bytes that hold no magic pair [add_data] returns no frame
    and keeps at most three bytes, at most one once four bytes or more
    are at hand: garbage does not pile up. *)
Theorem add_data_garbage (self : Parser) (data : bytes) :
  ~ has_magic (buffer self ++ data) ->
  fst (add_data self data) = []
  /\ length (buffer (snd (add_data self data))) <= 3
  /\ (4 <= length (buffer self ++ data) ->
      length (buffer (snd (add_data self data))) <= 1).
Proof.
  intros H. rewrite FrameFacts.add_data_run. cbn [fst snd buffer].
  exact (FrameMore.run_garbage _ H).
Qed.

Lemma add_data_garbage_witness :
  fst (add_data {| buffer := [x01; x94] |} [x02; x03; x94]) = []
  /\ length (buffer (snd (add_data {| buffer := [x01; x94] |}
                                   [x02; x03; x94]))) <= 3
  /\ (4 <= length (buffer {| buffer := [x01; x94] |} ++ [x02; x03; x94]) ->
      length (buffer (snd (add_data {| buffer := [x01; x94] |}
                                    [x02; x03; x94]))) <= 1).
Proof.
  apply (add_data_garbage {| buffer := [x01; x94] |} [x02; x03; x94]).
  apply FrameFacts.find_magic_none_no_magic. reflexivity.
Defined.

(** X6 -- after any [add_data] call, a call with no new bytes returns no
    frame and leaves the parser as it is: the buffer never holds a frame
    that could have been returned. *)
Theorem add_data_quiet (self : Parser) (data : bytes) :
  add_data (snd (add_data self data)) []
  = ([], snd (add_data self data)).
Proof.
  rewrite !FrameFacts.add_data_run. cbn [fst snd buffer].
  rewrite app_nil_r. now rewrite FrameMore.run_quiet.
Qed.

(** X7 -- [add_data] accounts for its input: buffer and new bytes are some
    consumed bytes followed by the buffer left, and the raw frames
    returned take no more than the consumed bytes. *)
Theorem add_data_accounts (self : Parser) (data : bytes) :
  exists consumed,
    buffer self ++ data = consumed ++ buffer (snd (add_data self data))
    /\ raw_length (fst (add_data self data)) <= length consumed.
Proof.
  rewrite FrameFacts.add_data_run. cbn [fst snd buffer].
  apply FrameMore.run_accounts.
Qed.

(* ================================================================= *)
(** ** More on the string operations *)

Module PyStrMore.
Import PyStr PyStrObs.

Lemma split_from_words (s cur : pystr) :
  Forall nonspace cur -> Forall word (split_from cur s).
Proof.
  revert cur; induction s as [|c r IH]; intros cur Hc; cbn [split_from].
  - destruct cur; constructor; [|constructor]. split; [discriminate|assumption].
  - destruct (isspace c) eqn:E.
    + destruct cur as [|x cur'].
      * apply IH. constructor.
      * constructor; [split; [discriminate|assumption]|]. apply IH. constructor.
    + apply IH. apply Forall_app. split; [assumption|]. now constructor.
Qed.

Lemma split_from_app_word (w cur r : pystr) :
  Forall nonspace w -> split_from cur (w ++ r) = split_from (cur ++ w) r.
Proof.
  revert cur; induction w as [|c w IH]; intros cur Hw; cbn [app].
  - now rewrite app_nil_r.
  - inversion Hw as [|? ? Hc Hw']; subst. cbn [split_from].
    unfold nonspace in Hc. rewrite Hc, IH by assumption.
    now rewrite <- app_assoc.
Qed.

Lemma split_join (ws : list pystr) :
  Forall word ws -> split_from [] (join [SPACE] ws) = ws.
Proof.
  induction 1 as [|w ws [Hne Hw] Hws IH]; [reflexivity|].
  destruct ws as [|w' ws'].
  - cbn [join]. rewrite <- (app_nil_r w) at 1.
    rewrite split_from_app_word by assumption. cbn [app split_from].
    now destruct w.
  - change (join [SPACE] (w :: w' :: ws'))
      with (w ++ SPACE :: join [SPACE] (w' :: ws')).
    rewrite split_from_app_word by assumption. cbn [app split_from].
    change (isspace SPACE) with true. cbv iota. rewrite IH.
    now destruct w.
Qed.

Lemma join_chars (ws : list pystr) (c : char) :
  Forall word ws -> In c (join [SPACE] ws) -> nonspace c \/ c = SPACE.
Proof.
  induction 1 as [|w ws [Hne Hw] Hws IH]; [contradiction|].
  destruct ws as [|w' ws'].
  - cbn [join]. intros H. left. rewrite Forall_forall in Hw. now apply Hw.
  - change (join [SPACE] (w :: w' :: ws'))
      with (w ++ SPACE :: join [SPACE] (w' :: ws')).
    intros H. apply in_app_or in H as [H|[H|H]].
    + left. rewrite Forall_forall in Hw. now apply Hw.
    + now right.
    + now apply IH.
Qed.

(** A string that begins with a character that is not whitespace keeps
    it through [split] and [join]. *)
Lemma split_from_head (s cur : pystr) (c : char) :
  exists w ws, split_from (c :: cur) s = (c :: w) :: ws.
Proof.
  revert cur; induction s as [|x r IH]; intros cur; cbn [split_from].
  - now exists cur, [].
  - destruct (isspace x).
    + now exists cur, (split_from [] r).
    + apply (IH (cur ++ [x])).
Qed.

Lemma join_head (c : char) (w : pystr) (ws : list pystr) :
  exists r, join [SPACE] ((c :: w) :: ws) = c :: r.
Proof.
  destruct ws as [|w' ws']; cbn [join app]; eauto.
Qed.

Lemma lstrip_suffix (s : pystr) : exists pre, s = pre ++ lstrip s.
Proof.
  induction s as [|c r [pre IH]]; [now exists []|]. cbn [lstrip].
  destruct (isspace c).
  - exists (c :: pre). cbn [app]. now rewrite <- IH.
  - now exists [].
Qed.

Lemma rstrip_prefix (s : pystr) : prefix_of (rstrip s) s.
Proof.
  unfold prefix_of, rstrip. destruct (lstrip_suffix (rev s)) as [pre H].
  exists (rev pre). rewrite <- rev_app_distr, <- H. now rewrite rev_involutive.
Qed.

Lemma lstrip_snoc (l : pystr) (c : char) :
  nonspace c -> exists l', lstrip (l ++ [c]) = l' ++ [c].
Proof.
  intros Hc. induction l as [|x l [l' IH]]; cbn [app lstrip].
  - unfold nonspace in Hc. rewrite Hc. now exists [].
  - destruct (isspace x); [now exists l'|]. now exists (x :: l).
Qed.

Lemma rstrip_head (c : char) (r : pystr) :
  nonspace c -> exists r', rstrip (c :: r) = c :: r'.
Proof.
  intros Hc. unfold rstrip. cbn [rev].
  destruct (lstrip_snoc (rev r) c Hc) as [l' H]. rewrite H.
  rewrite rev_app_distr. cbn [rev app]. now exists (rev l').
Qed.

Lemma lstrip_head (s : pystr) :
  lstrip s = [] \/ exists c r, lstrip s = c :: r /\ nonspace c.
Proof.
  induction s as [|x r IH]; [now left|]. cbn [lstrip].
  destruct (isspace x) eqn:E; [exact IH|]. right. now exists x, r.
Qed.

Lemma strip_head (s : pystr) :
  strip s = [] \/ exists c r, strip s = c :: r /\ nonspace c.
Proof.
  unfold strip. destruct (lstrip_head s) as [->|(c & r & -> & Hc)];
    [now left|]. right.
  destruct (rstrip_head c r Hc) as [r' H]. now exists c, r'.
Qed.

Lemma strip_keeps_head (c : char) (r : pystr) :
  nonspace c -> exists r', strip (c :: r) = c :: r'.
Proof.
  intros Hc. unfold strip. cbn [lstrip]. unfold nonspace in Hc. rewrite Hc.
  now apply rstrip_head.
Qed.

Lemma strip_prefix_of_lstrip (s : pystr) : prefix_of (strip s) (lstrip s).
Proof. apply rstrip_prefix. Qed.

Lemma strip_incl (s : pystr) (c : char) : In c (strip s) -> In c s.
Proof.
  intros H. destruct (strip_prefix_of_lstrip s) as [rest Hr].
  destruct (lstrip_suffix s) as [pre Hp]. rewrite Hp, Hr.
  apply in_or_app. right. apply in_or_app. now left.
Qed.

Lemma prefix_of_trans (a b c : pystr) :
  prefix_of a b -> prefix_of b c -> prefix_of a c.
Proof.
  intros [r1 ->] [r2 ->]. exists (r1 ++ r2). now rewrite app_assoc.
Qed.

Lemma firstn_prefix (n : nat) (s : pystr) : prefix_of (firstn n s) s.
Proof. exists (skipn n s). now rewrite firstn_skipn. Qed.

(** Stripping a prefix of a stripped string only cuts at its end. *)
Lemma strip_firstn_prefix (n : nat) (s : pystr) :
  prefix_of (strip (firstn n (strip s))) (strip s).
Proof.
  apply prefix_of_trans with (firstn n (strip s)); [|apply firstn_prefix].
  destruct (strip_head s) as [->|(c & r & -> & Hc)].
  - rewrite firstn_nil. now exists [].
  - destruct n as [|n]; [now exists []|]. cbn [firstn]. unfold strip.
    cbn [lstrip]. unfold nonspace in Hc. rewrite Hc. apply rstrip_prefix.
Qed.

End PyStrMore.

(* ================================================================= *)
(** ** More on the generator client *)

Module AIMore.
Import PyStr PyStrObs PyStrMore AI.

Lemma clean_split (s : pystr) : split (_clean_whitespace s) = split s.
Proof.
  unfold _clean_whitespace, split. apply split_join.
  apply split_from_words. constructor.
Qed.

Lemma clean_chars (s : pystr) (c : char) :
  In c (_clean_whitespace s) -> nonspace c \/ c = SPACE.
Proof.
  unfold _clean_whitespace, split. apply join_chars.
  apply split_from_words. constructor.
Qed.

Lemma clean_head (c : char) (r : pystr) :
  nonspace c -> exists r', _clean_whitespace (c :: r) = c :: r'.
Proof.
  intros Hc. unfold _clean_whitespace, split. cbn [split_from].
  unfold nonspace in Hc. rewrite Hc. cbn [app].
  destruct (split_from_head r [] c) as (w & ws & ->). apply join_head.
Qed.

Lemma clean_no_newline (s : pystr) : ~ In NEWLINE (_clean_whitespace s).
Proof.
  intros H. apply clean_chars in H as [H|H]; discriminate.
Qed.

Lemma trim_prefix (s : pystr) : prefix_of (_trim_to_max_chars s) (strip s).
Proof.
  unfold _trim_to_max_chars. cbv zeta.
  destruct (length (strip s) <=? max_chars);
    [exists []; now rewrite app_nil_r|].
  destruct (candidates (strip s) max_chars) as [|c cs].
  - apply prefix_of_trans with (firstn max_chars (strip s));
      [apply rstrip_prefix | apply firstn_prefix].
  - apply strip_firstn_prefix.
Qed.

Lemma trim_keeps_head (c : char) (r : pystr) :
  nonspace c -> ~ In NEWLINE (c :: r) ->
  exists r', _trim_to_max_chars (c :: r) = c :: r'.
Proof.
  intros Hc Hnl. unfold _trim_to_max_chars. cbv zeta.
  destruct (strip_keeps_head c r Hc) as [r1 Hs].
  assert (Hnl1 : ~ In NEWLINE (c :: r1)).
  { intros H. apply Hnl. apply strip_incl. now rewrite Hs. }
  rewrite Hs. destruct (length (c :: r1) <=? max_chars); [now exists r1|].
  destruct (candidates (c :: r1) max_chars) as [|c0 cs] eqn:Ec.
  - cbn [max_chars firstn]. now apply rstrip_head.
  - assert (Hin : In (max_list (c0 :: cs)) (candidates (c :: r1) max_chars)).
    { rewrite Ec. apply PyStrFacts.max_list_in. discriminate. }
    apply AIFacts.candidates_in in Hin as (p & idx & Hp & E & Hm).
    apply PyStrFacts.rfind_some in E as (_ & _ & Hmatch & _).
    destruct (AIFacts.boundary_shape p Hp) as [[-> _]|(Hlen & _ & _)].
    + exfalso. apply Hnl1.
      pose proof (PyStrFacts.match_at_nth (c :: r1) [NEWLINE] idx 0 Hmatch)
        as Hn.
      rewrite Nat.add_0_r in Hn. cbn [length nth_error] in Hn.
      apply nth_error_In with idx. apply Hn. lia.
    + rewrite Hm, Hlen. replace (idx + 1) with (S idx) by lia.
      cbn [firstn]. now apply strip_keeps_head.
Qed.

Lemma ensure_user (user_id base first : pystr) :
  fst (_ensure_length_bounds (ChatUser user_id) base first)
  = (if max_chars <? length (_clean_whitespace first)
     then _trim_to_max_chars (_clean_whitespace first)
     else _clean_whitespace first).
Proof.
  unfold _ensure_length_bounds. cbv zeta.
  now destruct (length (_clean_whitespace first) <? min_chars).
Qed.

Lemma ensure_user_head (user_id base r : pystr) (c : char) :
  nonspace c ->
  exists r', fst (_ensure_length_bounds (ChatUser user_id) base (c :: r))
             = c :: r'.
Proof.
  intros Hc. rewrite ensure_user.
  destruct (clean_head c r Hc) as [r1 H].
  pose proof (clean_no_newline (c :: r)) as Hnl. rewrite H in *.
  destruct (max_chars <? length (c :: r1)); [|now exists r1].
  now apply trim_keeps_head.
Qed.

(** What the loop answers: the fallback, or the text of the first attempt
    that has one, normalised and cut when over [max_chars]. *)
Lemma attempts_reply (cl : Client) (user_id contents : pystr)
  (attempts : list nat) (reply : pystr) :
  fst (attempts_loop cl user_id contents attempts) = Ok reply ->
  reply <> []
  /\ (reply = FALLBACK
      \/ exists k resp,
           In k attempts /\ generate_content cl k contents = Ok resp
           /\ nonempty (strip (_extract_text resp)) = true
           /\ reply
              = (let t := _clean_whitespace (strip (_extract_text resp)) in
                 if max_chars <? length t then _trim_to_max_chars t else t)).
Proof.
  induction attempts as [|a rest IH]; cbn [attempts_loop log_call fst].
  - intros H; injection H as <-. split; [discriminate | now left].
  - assert (Hstep :
      fst (attempts_loop cl user_id contents rest) = Ok reply ->
      reply <> []
      /\ (reply = FALLBACK
          \/ exists k resp,
               In k (a :: rest) /\ generate_content cl k contents = Ok resp
               /\ nonempty (strip (_extract_text resp)) = true
               /\ reply
                  = (let t := _clean_whitespace (strip (_extract_text resp)) in
                     if max_chars <? length t then _trim_to_max_chars t
                     else t))).
    { intros H. destruct (IH H) as [Hne [Hf|(k & resp & Hk & Hrest)]].
      - split; [assumption | now left].
      - split; [assumption|]. right. exists k, resp. split; [now right|].
        exact Hrest. }
    destruct (generate_content cl a contents) as [resp|e] eqn:Eg.
    + destruct (nonempty (strip (_extract_text resp))) eqn:En; [|exact Hstep].
      pose proof (ensure_user user_id contents (strip (_extract_text resp)))
        as Hu.
      assert (Hhead : exists c r, strip (_extract_text resp) = c :: r
                                  /\ nonspace c).
      { destruct (strip_head (_extract_text resp)) as [E|H]; [|exact H].
        rewrite E in En. discriminate. }
      destruct Hhead as (c & r & Hs & Hc).
      destruct (ensure_user_head user_id contents r c Hc) as [r' Hh].
      rewrite <- Hs in Hh.
      destruct (_ensure_length_bounds _ _ _) as [bounded calls].
      cbn [fst] in *. intros H; injection H as <-. split.
      * rewrite Hh. discriminate.
      * right. exists a, resp. split; [now left|]. split; [exact Eg|].
        split; [exact En | exact Hu].
    + destruct (a <? max_retries - 1); [exact Hstep | discriminate].
Qed.

Lemma attempts_raise (cl : Client) (user_id contents : pystr)
  (attempts : list nat) (m : pystr) :
  fst (attempts_loop cl user_id contents attempts) = Raise m ->
  exists pre a post e,
    attempts = pre ++ a :: post
    /\ (a <? max_retries - 1) = false
    /\ generate_content cl a contents = Raise e
    /\ m = of_string "AI generation failed after " ++ str_of_nat max_retries
           ++ of_string " attempts: " ++ e
    /\ length (snd (attempts_loop cl user_id contents attempts))
       = S (length pre).
Proof.
  induction attempts as [|a rest IH]; cbn [attempts_loop log_call fst snd];
    [discriminate|].
  assert (Hstep :
    fst (attempts_loop cl user_id contents rest) = Raise m ->
    exists pre a0 post e,
      a :: rest = pre ++ a0 :: post
      /\ (a0 <? max_retries - 1) = false
      /\ generate_content cl a0 contents = Raise e
      /\ m = of_string "AI generation failed after " ++ str_of_nat max_retries
             ++ of_string " attempts: " ++ e
      /\ length (GenerateContent contents
                   :: snd (attempts_loop cl user_id contents rest))
         = S (length pre)).
  { intros H. destruct (IH H) as (pre & a0 & post & e & -> & H1 & H2 & H3 & H4).
    exists (a :: pre), a0, post, e. cbn [app length]. repeat split; auto. }
  destruct (generate_content cl a contents) as [resp|e] eqn:Eg.
  - destruct (nonempty (strip (_extract_text resp))); [|exact Hstep].
    destruct (_ensure_length_bounds _ _ _). discriminate.
  - destruct (a <? max_retries - 1) eqn:Ea; [exact Hstep|].
    intros H; injection H as <-. exists [], a, rest, e.
    repeat split; auto.
Qed.

Lemma attempts_count (cl : Client) (user_id contents : pystr)
  (attempts : list nat) :
  length (snd (attempts_loop cl user_id contents attempts)) <= length attempts
  /\ (attempts <> [] ->
      1 <= length (snd (attempts_loop cl user_id contents attempts))).
Proof.
  induction attempts as [|a rest [IH _]]; cbn [attempts_loop log_call snd].
  - split; [simpl; lia | congruence].
  - cbn [length]. split; [|lia].
    destruct (generate_content cl a contents) as [resp|e].
    + destruct (nonempty (strip (_extract_text resp))); [|lia].
      pose proof (AIFacts.ensure_user_calls user_id contents
                    (strip (_extract_text resp))) as Hc.
      destruct (_ensure_length_bounds _ _ _) as [bounded calls].
      cbn [snd] in *. rewrite Hc. simpl. lia.
    + destruct (a <? max_retries - 1); [lia | simpl; lia].
Qed.

Lemma chat_reply_facts (self : AIHandler) (user_id prompt reply : pystr) :
  fst (chat_respond self user_id prompt) = Ok reply ->
  reply <> [] /\ length reply <= max_chars.
Proof.
  unfold chat_respond. destruct (client self) as [cl|]; [|discriminate].
  intros H. split.
  - now destruct (attempts_reply _ _ _ _ _ H).
  - now apply AIFacts.attempts_upper in H.
Qed.

End AIMore.

Import PyStrObs Demo2.

(** X8 -- [_clean_whitespace] gives a normal form: cleaning again changes
    nothing, the words are those of the input, the only whitespace left is
    the single space, and the result is never longer than the input. *)
Theorem clean_normal_form (s : pystr) :
  _clean_whitespace (_clean_whitespace s) = _clean_whitespace s
  /\ split (_clean_whitespace s) = split s
  /\ (forall c, In c (_clean_whitespace s) -> isspace c = true -> c = SPACE)
  /\ length (_clean_whitespace s) <= length s.
Proof.
  split; [|split; [|split]].
  - unfold _clean_whitespace at 1. now rewrite AIMore.clean_split.
  - apply AIMore.clean_split.
  - intros c Hin Hsp. destruct (AIMore.clean_chars s c Hin) as [H|H];
      [|exact H]. unfold nonspace in H. congruence.
  - apply AIFacts.clean_length.
Qed.

(** X9 -- [_trim_to_max_chars] only cuts: its result is a prefix of the
    stripped input, at most [max_chars] long, and it is the whole stripped
    input exactly when that one has at most [max_chars] characters. *)
Theorem trim_is_prefix (s : pystr) :
  prefix_of (_trim_to_max_chars s) (strip s)
  /\ length (_trim_to_max_chars s) <= max_chars
  /\ (_trim_to_max_chars s = strip s <-> length (strip s) <= max_chars).
Proof.
  split; [apply AIMore.trim_prefix|]. split; [apply AIFacts.trim_upper|].
  split.
  - intros H. rewrite <- H. apply AIFacts.trim_upper.
  - intros H. unfold _trim_to_max_chars. cbv zeta.
    apply Nat.leb_le in H. now rewrite H.
Qed.

(** X10 -- the calls of [chat_respond]: without a client it raises
    ["AI model not initialized"] and calls nothing; with one it makes at
    least one and at most [max_retries] calls, every one a
    [generate_content] of the concise prompt, never a [send_message]. *)
Theorem chat_respond_calls (self : AIHandler) (user_id prompt : pystr) :
  match client self with
  | None =>
      chat_respond self user_id prompt
      = (Raise (of_string "AI model not initialized"), [])
  | Some _ =>
      1 <= length (snd (chat_respond self user_id prompt)) <= max_retries
      /\ Forall (fun c => c = GenerateContent (concise_prompt prompt))
                (snd (chat_respond self user_id prompt))
  end.
Proof.
  unfold chat_respond. destruct (client self) as [cl|]; [|reflexivity].
  destruct (AIMore.attempts_count cl user_id (concise_prompt prompt)
              (seq 0 max_retries)) as [H1 H2].
  rewrite length_seq in H1. split; [split; [apply H2; discriminate | exact H1]|].
  apply AIFacts.attempts_calls.
Qed.

(** X11 -- [chat_respond] raises only without a client, or when the
    third attempt raises after two attempts that gave no text: the
    message then ends with the error of that third attempt and three calls
    were made. Errors of the first two attempts are never raised. *)
Theorem chat_respond_raises (self : AIHandler) (user_id prompt m : pystr) :
  fst (chat_respond self user_id prompt) = Raise m ->
  (client self = None /\ m = of_string "AI model not initialized")
  \/ exists cl e,
       client self = Some cl
       /\ generate_content cl 2 (concise_prompt prompt) = Raise e
       /\ m = of_string "AI generation failed after " ++ str_of_nat max_retries
              ++ of_string " attempts: " ++ e
       /\ length (snd (chat_respond self user_id prompt)) = 3.
Proof.
  unfold chat_respond. destruct (client self) as [cl|].
  - intros H. right. exists cl.
    destruct (AIMore.attempts_raise _ _ _ _ _ H)
      as (pre & a & post & e & Hs & Ha & Hg & Hm & Hl).
    exists e. split; [reflexivity|].
    assert (Hpre : pre = [0; 1] /\ a = 2).
    { cbn [seq max_retries] in Hs.
      destruct pre as [|x [|y [|z pre']]]; cbn [app] in Hs.
      - injection Hs as <- _. discriminate.
      - injection Hs as _ <- _. discriminate.
      - injection Hs as <- <- <- _. now split.
      - injection Hs as _ _ _ Hs. destruct pre'; discriminate. }
    destruct Hpre as [-> ->]. now repeat split.
  - intros H. injection H as <-. now left.
Qed.

Lemma chat_respond_raises_witness :
  (client failing_handler = None
   /\ of_string "AI generation failed after 3 attempts: boom"
      = of_string "AI model not initialized")
  \/ exists cl e,
       client failing_handler = Some cl
       /\ generate_content cl 2 (concise_prompt (of_string "hi")) = Raise e
       /\ of_string "AI generation failed after 3 attempts: boom"
          = of_string "AI generation failed after " ++ str_of_nat max_retries
            ++ of_string " attempts: " ++ e
       /\ length (snd (chat_respond failing_handler (of_string "u")
                                    (of_string "hi"))) = 3.
Proof.
  apply (chat_respond_raises failing_handler (of_string "u") (of_string "hi")).
  reflexivity.
Defined.

(** X12 -- what [chat_respond] returns is never empty: it is the fallback
    sentence, or the text of an attempt, whitespace-normalised and cut by
    [_trim_to_max_chars] only when longer than [max_chars]; a text shorter
    than [min_chars] is returned as it is. *)
Theorem chat_respond_reply (self : AIHandler) (user_id prompt reply : pystr) :
  fst (chat_respond self user_id prompt) = Ok reply ->
  reply <> []
  /\ (reply = FALLBACK
      \/ exists cl k resp,
           client self = Some cl /\ k < max_retries
           /\ generate_content cl k (concise_prompt prompt) = Ok resp
           /\ nonempty (strip (_extract_text resp)) = true
           /\ reply
              = (let t := _clean_whitespace (strip (_extract_text resp)) in
                 if max_chars <? length t then _trim_to_max_chars t else t)).
Proof.
  unfold chat_respond. destruct (client self) as [cl|]; [|discriminate].
  intros H. destruct (AIMore.attempts_reply _ _ _ _ _ H)
    as [Hne [Hf|(k & resp & Hk & Hrest)]].
  - split; [assumption | now left].
  - split; [assumption|]. right. exists cl, k, resp.
    split; [reflexivity|]. split; [|exact Hrest].
    apply in_seq in Hk. lia.
Qed.

Lemma chat_respond_reply_witness :
  of_string "Hello world" <> []
  /\ (of_string "Hello world" = FALLBACK
      \/ exists cl k resp,
           client demo_handler = Some cl /\ k < max_retries
           /\ generate_content cl k (concise_prompt (of_string "hi")) = Ok resp
           /\ nonempty (strip (_extract_text resp)) = true
           /\ of_string "Hello world"
              = (let t := _clean_whitespace (strip (_extract_text resp)) in
                 if max_chars <? length t then _trim_to_max_chars t else t)).
Proof.
  apply (chat_respond_reply demo_handler (of_string "u") (of_string "hi")).
  reflexivity.
Defined.

(* ================================================================= *)
(** ** More on the broker *)

Module BrokerFacts.
Import Frame PyStr AI Proxy Broker.

Lemma log_nil (st : MultiClientProxy) : log st [] = st.
Proof. destruct st. unfold log. cbn. now rewrite app_nil_r. Qed.

Lemma log_log (st : MultiClientProxy) (a b : list event) :
  log (log st a) b = log st (a ++ b).
Proof. unfold log. cbn. now rewrite app_assoc. Qed.

Lemma socket_writes_app (a b : list event) :
  socket_writes (a ++ b) = socket_writes a ++ socket_writes b.
Proof. apply filter_app. Qed.

Lemma tasks_created_app (a b : list event) :
  tasks_created (a ++ b) = tasks_created a ++ tasks_created b.
Proof. apply flat_map_app. Qed.

Lemma socket_writes_generator (calls : list call) :
  socket_writes (map Generator calls) = [].
Proof. induction calls; [reflexivity | exact IHcalls]. Qed.

Lemma tasks_created_generator (calls : list call) :
  tasks_created (map Generator calls) = [].
Proof. induction calls; [reflexivity | exact IHcalls]. Qed.

Lemma socket_writes_client_writes (st : MultiClientProxy) (data : bytes)
  (exclude_id : option nat) :
  socket_writes (client_writes st data exclude_id)
  = client_writes st data exclude_id.
Proof.
  unfold client_writes.
  induction (filter _ (clients st)) as [|c l IH]; [reflexivity|].
  cbn [map socket_writes filter is_socket_write]. f_equal. exact IH.
Qed.

(** *** The registry *)

Lemma find_none_keys (id : nat) (l : list (nat * ClientConnection)) :
  find (fun c => fst c =? id) l = None <-> ~ In id (map fst l).
Proof.
  induction l as [|[k v] l IH]; cbn [find map In fst]; [tauto|].
  destruct (k =? id) eqn:E.
  - apply Nat.eqb_eq in E. split; [discriminate | intros H; exfalso; auto].
  - apply Nat.eqb_neq in E. rewrite IH. tauto.
Qed.

Lemma filter_keys_out (id : nat) (l : list (nat * ClientConnection)) :
  ~ In id (map fst (filter (fun c => negb (fst c =? id)) l)).
Proof.
  intros H. apply in_map_iff in H as (c & Hc & Hin).
  apply filter_In in Hin as [_ Hf]. rewrite Hc, Nat.eqb_refl in Hf.
  discriminate.
Qed.

Lemma filter_absent (id : nat) (l : list (nat * ClientConnection)) :
  ~ In id (map fst l) -> filter (fun c => negb (fst c =? id)) l = l.
Proof.
  induction l as [|[k v] l IH]; cbn [filter map In fst]; [reflexivity|].
  intros H. destruct (k =? id) eqn:E.
  - apply Nat.eqb_eq in E. exfalso. auto.
  - cbn [negb]. rewrite IH; [reflexivity | tauto].
Qed.

Lemma dict_set_fresh (k : nat) (v : ClientConnection)
  (d : list (nat * ClientConnection)) :
  ~ In k (map fst d) -> dict_set k v d = d ++ [(k, v)].
Proof.
  induction d as [|[k' v'] d IH]; cbn [dict_set map In fst app];
    [reflexivity|].
  intros H. destruct (k' =? k) eqn:E.
  - apply Nat.eqb_eq in E. exfalso. auto.
  - rewrite IH; [reflexivity | tauto].
Qed.

Lemma registry_counter_fresh (st : MultiClientProxy) :
  registry_ok st -> ~ In (client_id_counter st + 1) (map fst (clients st)).
Proof.
  intros [_ Hb] H. apply in_map_iff in H as (c & Hc & Hin).
  rewrite Forall_forall in Hb. specialize (Hb c Hin). lia.
Qed.

Lemma remove_client_spec (st : MultiClientProxy) (client_id : nat) :
  clients_lock st = false ->
  _remove_client st client_id
  = Done tt
      (if existsb (fun c => fst c =? client_id) (clients st)
       then log (set_clients st
                   (filter (fun c => negb (fst c =? client_id)) (clients st)))
                [ClientClose client_id]
       else st).
Proof.
  intros Hl. unfold _remove_client. rewrite Hl.
  destruct (find _ (clients st)) as [c|] eqn:E.
  - apply find_some in E as [Hin Hc].
    assert (Hex : existsb (fun c => fst c =? client_id) (clients st) = true).
    { apply existsb_exists. now exists c. }
    now rewrite Hex.
  - assert (Hex : existsb (fun c => fst c =? client_id) (clients st) = false).
    { destruct (existsb _ _) eqn:Ex; [|reflexivity].
      apply existsb_exists in Ex as (c & Hin & Hc).
      now rewrite (find_none _ _ E c Hin) in Hc. }
    now rewrite Hex.
Qed.

(** *** The two loops of [broadcast_to_clients] *)

Lemma write_all_log (data : bytes) (exclude_id : option nat)
  (items : list (nat * ClientConnection)) :
  forall (st : MultiClientProxy) (disconnected : list nat),
    clients_lock st = true ->
    write_all st data exclude_id items disconnected
    = (log st
         (map (fun c => ClientWrite (fst c) data true
                                    (negb (write_raises (writer (snd c)))))
              (filter (fun c => negb (excluded exclude_id (fst c))) items)),
       disconnected
       ++ map fst
            (filter (fun c => negb (excluded exclude_id (fst c))
                              && write_raises (writer (snd c))) items)).
Proof.
  induction items as [|[client_id client] items IH]; intros st disc Hl;
    cbn [write_all filter map fst snd].
  - now rewrite log_nil, app_nil_r.
  - destruct (excluded exclude_id client_id); cbn [negb andb map fst snd].
    + now apply IH.
    + rewrite Hl. destruct (write_raises (writer client)); cbn [negb map fst].
      * rewrite IH by exact Hl. rewrite log_log, <- app_assoc. reflexivity.
      * rewrite IH by exact Hl. rewrite log_log. reflexivity.
Qed.

Lemma lock_round_trip (st : MultiClientProxy) (evs : list event) :
  clients_lock st = false ->
  set_clients_lock (log (set_clients_lock st true) evs) false = log st evs.
Proof. intros H. destruct st. cbn in *. now subst. Qed.

Lemma existsb_keys (id : nat) (l : list (nat * ClientConnection)) :
  existsb (fun c => fst c =? id) l = true <-> In id (map fst l).
Proof.
  rewrite existsb_exists, in_map_iff. split.
  - intros (c & Hin & Hc). apply Nat.eqb_eq in Hc. now exists c.
  - intros (c & Hc & Hin). exists c. split; [assumption|].
    now apply Nat.eqb_eq.
Qed.

Lemma failing_none (exclude_id : option nat)
  (l : list (nat * ClientConnection)) :
  Forall (fun c => excluded exclude_id (fst c) = false ->
                   write_raises (writer (snd c)) = false) l ->
  filter (fun c => negb (excluded exclude_id (fst c))
                   && write_raises (writer (snd c))) l = [].
Proof.
  induction 1 as [|c l Hc _ IH]; [reflexivity|]. cbn [filter].
  destruct (excluded exclude_id (fst c)); cbn [negb andb]; [exact IH|].
  now rewrite Hc.
Qed.

Lemma failing_some (exclude_id : option nat)
  (l : list (nat * ClientConnection)) :
  Exists (fun c => excluded exclude_id (fst c) = false
                   /\ write_raises (writer (snd c)) = true) l ->
  filter (fun c => negb (excluded exclude_id (fst c))
                   && write_raises (writer (snd c))) l <> [].
Proof.
  intros H. apply Exists_exists in H as (c & Hin & He & Hw).
  intros Hf. assert (Hc : In c (filter (fun c => negb (excluded exclude_id (fst c))
                   && write_raises (writer (snd c))) l)).
  { apply filter_In. split; [assumption|]. now rewrite He, Hw. }
  now rewrite Hf in Hc.
Qed.

Lemma process_message_calls (self : GeminiIntegration)
  (sender_id message : pystr) :
  length (snd (process_message self sender_id message)) <= max_retries.
Proof.
  unfold process_message.
  destruct (negb (startswith message GEM)); [simpl; lia|].
  destruct (ai_handler self) as [handler|]; [|simpl; lia].
  destruct (negb (nonempty (strip (skipn 4 message)))); [simpl; lia|].
  assert (H : length (snd (chat_respond handler sender_id
                             (strip (skipn 4 message)))) <= max_retries).
  { unfold chat_respond. destruct (client handler) as [cl|]; [|simpl; lia].
    destruct (AIMore.attempts_count cl sender_id
                (concise_prompt (strip (skipn 4 message)))
                (seq 0 max_retries)) as [H _].
    now rewrite length_seq in H. }
  destruct (chat_respond _ _ _) as [[reply|e] calls]; exact H.
Qed.

(** *** Replies of [process_message] *)

Lemma process_message_reply (self : GeminiIntegration)
  (sender_id message : pystr) :
  startswith message GEM = true ->
  exists r, fst (process_message self sender_id message) = Some r
            /\ r <> [] /\ length r <= max_chars.
Proof.
  intros Hs. unfold process_message. rewrite Hs. cbn [negb].
  destruct (ai_handler self) as [handler|].
  2:{ exists NOT_AVAILABLE. split; [reflexivity|]. split; [discriminate|].
      apply Nat.leb_le. reflexivity. }
  destruct (negb (nonempty (strip (skipn 4 message)))).
  { exists NO_QUESTION. split; [reflexivity|]. split; [discriminate|].
    apply Nat.leb_le. reflexivity. }
  destruct (chat_respond handler sender_id (strip (skipn 4 message)))
    as [[reply|e] calls] eqn:E.
  - exists reply. split; [reflexivity|].
    apply (AIMore.chat_reply_facts handler sender_id
             (strip (skipn 4 message))). now rewrite E.
  - eexists. split; [reflexivity|]. split; [discriminate|].
    rewrite !length_app.
    pose proof (firstn_le_length 100 e) as H.
    change (length (of_string "[AI Error: ")) with 11.
    change (length (of_string "]")) with 1. unfold max_chars. lia.
Qed.

Section Interception.

Variable TEXT_MESSAGE_APP : Z.
Variable parse_to_radio : bytes -> option ToRadio.
Variable parse_from_radio : bytes -> option FromRadio.
Variable decode_utf8_ignore : bytes -> pystr.

Local Abbreviation try_parse :=
  (try_parse_text_message TEXT_MESSAGE_APP parse_to_radio parse_from_radio
                          decode_utf8_ignore).
Local Abbreviation intercept_ :=
  (intercept TEXT_MESSAGE_APP parse_to_radio parse_from_radio
             decode_utf8_ignore).
Local Abbreviation is_gem_ :=
  (is_gem TEXT_MESSAGE_APP parse_to_radio parse_from_radio
          decode_utf8_ignore).
Local Abbreviation handle_client_data_ :=
  (handle_client_data TEXT_MESSAGE_APP parse_to_radio parse_from_radio
                      decode_utf8_ignore).
Local Abbreviation client_loop_ :=
  (client_loop TEXT_MESSAGE_APP parse_to_radio parse_from_radio
               decode_utf8_ignore).

Local Abbreviation answers_ :=
  (answers TEXT_MESSAGE_APP parse_to_radio parse_from_radio
           decode_utf8_ignore).

Lemma intercept_spec (frames : list frame) :
  forall st : MultiClientProxy,
  exists evs,
    intercept_ st frames = log st evs
    /\ socket_writes evs = []
    /\ Forall2 (answers_ (gemini st)) (filter is_gem_ frames)
               (tasks_created evs).
Proof.
  induction frames as [|[raw payload] frames IH]; intros st.
  - exists []. cbn [intercept filter]. rewrite log_nil. repeat split.
    constructor.
  - cbn [intercept filter]. unfold is_gem at 1. cbn [snd].
    destruct (try_parse payload) as [[[sender ch] text]|] eqn:Ep.
    2:{ destruct (IH st) as (evs & H1 & H2 & H3). now exists evs. }
    destruct (startswith text GEM) eqn:Eg.
    2:{ destruct (IH st) as (evs & H1 & H2 & H3). now exists evs. }
    destruct (process_message_reply (gemini st) sender text Eg)
      as (r & Hr & Hne & Hlen).
    destruct (process_message (gemini st) sender text) as [resp calls]
      eqn:Epm.
    cbn [fst] in Hr. subst resp.
    assert (Hn : nonempty r = true) by (destruct r; [congruence|reflexivity]).
    rewrite Hn.
    destruct (IH (log (log st (map Generator calls))
                      [CreateTask (SendAIResponse r (Some ch))]))
      as (evs & H1 & H2 & H3).
    exists (map Generator calls
            ++ [CreateTask (SendAIResponse r (Some ch))] ++ evs).
    split; [|split].
    + rewrite H1, !log_log, <- ?app_assoc. reflexivity.
    + rewrite !socket_writes_app, socket_writes_generator, H2. reflexivity.
    + rewrite !tasks_created_app, tasks_created_generator. cbn [app].
      cbn [tasks_created flat_map app]. constructor; [|exact H3].
      exists sender, ch, text, r. cbn [snd]. repeat split; auto.
      now rewrite Epm.
Qed.

Lemma socket_writes_radio_events (st : MultiClientProxy) (data : bytes) :
  socket_writes (radio_events st data) = radio_events st data.
Proof. unfold radio_events. now destruct (radio_writer st). Qed.

Lemma handle_client_data_log (st : MultiClientProxy)
  (client : ClientConnection) (data : bytes) :
  radio_lock st = false ->
  exists evs,
    handle_client_data_ st client data
    = Done tt (log st (evs ++ radio_events st data))
    /\ socket_writes evs = []
    /\ Forall2 (answers_ (gemini st))
               (filter is_gem_ (fst (add_data new_parser data)))
               (tasks_created evs).
Proof.
  intros Hl. unfold handle_client_data. cbv zeta.
  destruct (add_data new_parser data) as [frames p']. cbn [fst].
  destruct (intercept_spec frames st) as (evs & H1 & H2 & H3).
  exists evs. rewrite H1.
  destruct (ProxyFacts.send_to_radio_spec (log st evs) data Hl) as [ok Hs].
  rewrite Hs. cbn [bind]. rewrite log_log. repeat split; auto.
Qed.

Lemma client_loop_log (client : ClientConnection) (reads : list read) :
  forall st : MultiClientProxy,
    running st = true -> radio_lock st = false ->
    exists evs,
      client_loop_ st client reads = Done tt (log st evs)
      /\ socket_writes evs = flat_map (radio_events st) (received reads).
Proof.
  induction reads as [|rd rest IH]; intros st Hr Hl.
  - exists []. cbn [client_loop received flat_map]. rewrite Hr, log_nil.
    now split.
  - destruct rd as [[|b data]| |]; cbn [client_loop received flat_map];
      rewrite Hr; cbn [negb].
    + exists []. rewrite log_nil. now split.
    + destruct (handle_client_data_log st client (b :: data) Hl)
        as (e1 & H1 & H2 & _).
      rewrite H1. cbn [bind].
      destruct (IH (log st (e1 ++ radio_events st (b :: data))) Hr Hl)
        as (e2 & H3 & H4).
      exists ((e1 ++ radio_events st (b :: data)) ++ e2).
      rewrite H3, log_log. split; [reflexivity|].
      rewrite !socket_writes_app, H2, socket_writes_radio_events, H4.
      reflexivity.
    + apply (IH st Hr Hl).
    + exists []. rewrite log_nil. now split.
Qed.

End Interception.

Lemma radio_events_map (st : MultiClientProxy) (w : StreamWriter)
  (chunks : list bytes) :
  radio_writer st = Some w ->
  flat_map (radio_events st) chunks
  = map (fun d => RadioWrite d (negb (write_raises w))) chunks.
Proof.
  intros Hw. induction chunks as [|d l IH]; [reflexivity|].
  cbn [flat_map map]. rewrite IH. unfold radio_events. now rewrite Hw.
Qed.

Lemma filter_last_out (id : nat) (c : ClientConnection)
  (l : list (nat * ClientConnection)) :
  ~ In id (map fst l) ->
  filter (fun c => negb (fst c =? id)) (l ++ [(id, c)]) = l.
Proof.
  intros H. rewrite filter_app, filter_absent by exact H.
  cbn [filter fst]. rewrite Nat.eqb_refl. cbn [negb]. apply app_nil_r.
Qed.

(** *** UTF-8 *)

Lemma encode_char_surrogate (c : char) :
  (55296 <= c <= 57343)%N -> encode_char c = None.
Proof.
  intros H. unfold encode_char.
  assert (H1 : (c <? 128)%N = false) by (apply N.ltb_ge; lia).
  assert (H2 : (c <? 2048)%N = false) by (apply N.ltb_ge; lia).
  assert (H3 : (c <? 65536)%N = true) by (apply N.ltb_lt; lia).
  assert (H4 : (55296 <=? c)%N = true) by (apply N.leb_le; lia).
  assert (H5 : (c <=? 57343)%N = true) by (apply N.leb_le; lia).
  now rewrite H1, H2, H3, H4, H5.
Qed.

Lemma encode_utf8_surrogate (s : pystr) (c : char) :
  In c s -> (55296 <= c <= 57343)%N -> encode_utf8 s = None.
Proof.
  intros Hin Hc. induction s as [|x r IH]; [contradiction|].
  cbn [encode_utf8]. destruct Hin as [->|Hin].
  - now rewrite encode_char_surrogate.
  - rewrite IH by assumption. now destruct (encode_char x).
Qed.



(** *** Back-off *)

Lemma backoff_next (i : nat) :
  Nat.min (backoff_at i * 2) 30 = backoff_at (S i).
Proof.
  unfold backoff_at. rewrite Nat.pow_succ_r'. lia.
Qed.

End BrokerFacts.

Import Broker.

(** X13 -- [process_message] answers exactly the messages that begin with
    [/gem]: any other gets [None] and no generator call; a [/gem] message
    always gets a reply, which is never empty and has at most 600
    characters, whatever the generator does. At most [max_retries]
    generator calls are made. *)
Theorem process_message_replies (self : GeminiIntegration)
  (sender_id message : pystr) :
  (if startswith message GEM
   then exists r, fst (process_message self sender_id message) = Some r
                  /\ r <> [] /\ length r <= max_chars
   else process_message self sender_id message = (None, []))
  /\ length (snd (process_message self sender_id message)) <= max_retries.
Proof.
  split; [|apply BrokerFacts.process_message_calls].
  destruct (startswith message GEM) eqn:E.
  - now apply BrokerFacts.process_message_reply.
  - unfold process_message. now rewrite E.
Qed.

(** X14 -- [_remove_client], called with the lock free: the client is out
    of the registry afterwards, the others stay in their order, its socket
    is closed when it was registered and not otherwise, and removing it a
    second time changes nothing. The counter is not touched. *)
Theorem remove_client_idempotent (st : MultiClientProxy) (client_id : nat) :
  clients_lock st = false ->
  exists st1,
    _remove_client st client_id = Done tt st1
    /\ _remove_client st1 client_id = Done tt st1
    /\ ~ In client_id (map fst (clients st1))
    /\ clients st1
       = filter (fun c => negb (fst c =? client_id)) (clients st)
    /\ trace st1
       = trace st ++ (if existsb (fun c => fst c =? client_id) (clients st)
                      then [ClientClose client_id] else [])
    /\ client_id_counter st1 = client_id_counter st
    /\ (registry_ok st -> registry_ok st1).
Proof.
  intros Hl. rewrite (BrokerFacts.remove_client_spec st client_id Hl).
  destruct (existsb (fun c => fst c =? client_id) (clients st)) eqn:Ex.
  - eexists. split; [reflexivity|].
    split; [|split; [|split; [|split; [|split]]]]; try reflexivity.
    + rewrite BrokerFacts.remove_client_spec by exact Hl.
      cbn [clients log set_clients].
      assert (Hn : existsb (fun c => fst c =? client_id)
                     (filter (fun c => negb (fst c =? client_id)) (clients st))
                   = false).
      { destruct (existsb _ (filter _ _)) eqn:E; [|reflexivity].
        apply BrokerFacts.existsb_keys in E.
        now apply BrokerFacts.filter_keys_out in E. }
      now rewrite Hn.
    + cbn [clients log set_clients]. apply BrokerFacts.filter_keys_out.
    + intros [Hnd Hb]. unfold registry_ok. cbn [clients log set_clients
        client_id_counter]. split.
      * clear Hb Ex. induction (clients st) as [|[k v] l IH];
          [constructor|]. cbn [filter fst map] in *.
        inversion Hnd as [|? ? Hk Hnd']; subst.
        destruct (k =? client_id); cbn [negb]; [now apply IH|].
        cbn [map fst]. constructor; [|now apply IH].
        intros H. apply Hk. apply in_map_iff in H as (c & Hc & Hin).
        apply filter_In in Hin as [Hin _]. apply in_map_iff. now exists c.
      * rewrite Forall_forall in *. intros c Hin.
        apply filter_In in Hin as [Hin _]. now apply Hb.
  - exists st. split; [reflexivity|].
    assert (Hn : ~ In client_id (map fst (clients st))).
    { intros H. apply BrokerFacts.existsb_keys in H. congruence. }
    split; [|split; [|split; [|split; [|split]]]]; auto.
    + rewrite BrokerFacts.remove_client_spec by exact Hl. now rewrite Ex.
    + now rewrite BrokerFacts.filter_absent.
    + now rewrite app_nil_r.
Qed.

Lemma remove_client_idempotent_witness :
  exists st1,
    _remove_client two_clients 1 = Done tt st1
    /\ _remove_client st1 1 = Done tt st1
    /\ ~ In 1 (map fst (clients st1))
    /\ clients st1 = filter (fun c => negb (fst c =? 1)) (clients two_clients)
    /\ trace st1
       = trace two_clients
         ++ (if existsb (fun c => fst c =? 1) (clients two_clients)
             then [ClientClose 1] else [])
    /\ client_id_counter st1 = client_id_counter two_clients
    /\ (registry_ok two_clients -> registry_ok st1).
Proof. apply (remove_client_idempotent two_clients 1). reflexivity. Defined.

(** X15 -- accepting a client: with the registry in order (ids distinct
    and not above the counter) the new client gets the id counter + 1,
    which no registered client has, and is appended to the registry, which
    stays in order with the counter at the new id: an id is never handed
    out twice. *)
Theorem register_client_fresh (st : MultiClientProxy) (reader : nat)
  (writer : StreamWriter) (address : pystr) :
  clients_lock st = false ->
  registry_ok st ->
  exists client st1,
    register_client st reader writer address = Done client st1
    /\ cid client = client_id_counter st + 1
    /\ Proxy.writer client = writer
    /\ ~ In (cid client) (map fst (clients st))
    /\ clients st1 = clients st ++ [(cid client, client)]
    /\ client_id_counter st1 = cid client
    /\ registry_ok st1.
Proof.
  intros Hl Hok. unfold register_client. rewrite Hl. cbv zeta.
  cbn [client_id_counter set_client_id_counter clients].
  pose proof (BrokerFacts.registry_counter_fresh st Hok) as Hf.
  eexists. eexists. split; [reflexivity|].
  cbn [cid Proxy.writer clients set_clients client_id_counter].
  rewrite BrokerFacts.dict_set_fresh by exact Hf.
  repeat (split; [reflexivity || assumption|]).
  destruct Hok as [Hnd Hb]. unfold registry_ok.
  cbn [clients set_clients set_client_id_counter client_id_counter].
  rewrite ?BrokerFacts.dict_set_fresh by exact Hf. split.
  - rewrite map_app. cbn [map fst]. apply NoDup_app; [assumption| |].
    + constructor; [intros []|constructor].
    + intros x Hx [<-|[]]. contradiction.
  - apply Forall_app. split.
    + rewrite Forall_forall in *. intros c Hin. specialize (Hb c Hin). lia.
    + constructor; [cbn [fst]; lia | constructor].
Qed.

Lemma register_client_fresh_witness :
  exists client st1,
    register_client two_clients 3 (demo_writer 3) (of_string "10.0.0.7:4000")
    = Done client st1
    /\ cid client = client_id_counter two_clients + 1
    /\ Proxy.writer client = demo_writer 3
    /\ ~ In (cid client) (map fst (clients two_clients))
    /\ clients st1 = clients two_clients ++ [(cid client, client)]
    /\ client_id_counter st1 = cid client
    /\ registry_ok st1.
Proof.
  apply (register_client_fresh two_clients 3 (demo_writer 3)).
  - reflexivity.
  - split.
    + repeat constructor; simpl; intuition discriminate.
    + repeat constructor.
Defined.

(** X17 -- a broadcast in which no write fails returns with the lock
    released and the registry as it was, having written the data once to
    every client that is not excluded, in registry order. *)
Theorem broadcast_completes (st : MultiClientProxy) (data : bytes)
  (exclude_id : option nat) :
  clients_lock st = false ->
  Forall (fun c => excluded exclude_id (fst c) = false ->
                   write_raises (writer (snd c)) = false) (clients st) ->
  broadcast_to_clients st data exclude_id
  = Done tt (log st (client_writes st data exclude_id))
  /\ clients_lock (state_of (broadcast_to_clients st data exclude_id)) = false
  /\ clients (state_of (broadcast_to_clients st data exclude_id))
     = clients st.
Proof.
  intros Hl Hok.
  assert (H : broadcast_to_clients st data exclude_id
              = Done tt (log st (client_writes st data exclude_id))).
  { unfold broadcast_to_clients. rewrite Hl.
    rewrite (BrokerFacts.write_all_log data exclude_id
               (clients (set_clients_lock st true))
               (set_clients_lock st true) [] eq_refl).
    cbn [clients set_clients_lock].
    rewrite (BrokerFacts.failing_none exclude_id (clients st) Hok).
    cbn [map app remove_all bind].
    now rewrite BrokerFacts.lock_round_trip. }
  rewrite H. cbn [state_of log clients_lock clients]. auto.
Qed.

Lemma broadcast_completes_witness :
  broadcast_to_clients two_clients [x01] (Some 1)
  = Done tt (log two_clients (client_writes two_clients [x01] (Some 1)))
  /\ clients_lock (state_of (broadcast_to_clients two_clients [x01] (Some 1)))
     = false
  /\ clients (state_of (broadcast_to_clients two_clients [x01] (Some 1)))
     = clients two_clients.
Proof.
  apply (broadcast_completes two_clients [x01] (Some 1)).
  - reflexivity.
  - repeat constructor.
Defined.

(** X18 -- a broadcast in which a write fails never returns: after the
    writes, made to every client as usual, it waits in [_remove_client]
    for the lock it holds. The failed client stays registered, and with
    the lock held for good no client can be registered or removed and no
    later broadcast gets through. *)
Theorem broadcast_deadlock (st : MultiClientProxy) (data : bytes)
  (exclude_id : option nat) :
  clients_lock st = false ->
  Exists (fun c => excluded exclude_id (fst c) = false
                   /\ write_raises (writer (snd c)) = true) (clients st) ->
  let stuck := log (set_clients_lock st true)
                   (client_writes st data exclude_id) in
  broadcast_to_clients st data exclude_id = Blocked stuck
  /\ clients stuck = clients st
  /\ (forall reader writer address,
        register_client stuck reader writer address = Blocked stuck)
  /\ (forall client_id, _remove_client stuck client_id = Blocked stuck)
  /\ (forall d e, broadcast_to_clients stuck d e = Blocked stuck).
Proof.
  intros Hl Hex stuck. split; [|repeat split].
  unfold broadcast_to_clients. rewrite Hl.
  rewrite (BrokerFacts.write_all_log data exclude_id
             (clients (set_clients_lock st true))
             (set_clients_lock st true) [] eq_refl).
  cbn [clients set_clients_lock app].
  pose proof (BrokerFacts.failing_some exclude_id (clients st) Hex) as Hne.
  rewrite ProxyFacts.remove_all_locked by reflexivity.
  destruct (filter _ (clients st)) as [|c l]; [contradiction|].
  reflexivity.
Qed.

Lemma broadcast_deadlock_witness :
  let st := demo_proxy (demo_writer 0)
              [(1, demo_client 1);
               (2, {| reader := 2; writer := demo_broken_writer;
                      address := of_string "10.0.0.9:1"; cid := 2 |})] in
  let stuck := log (set_clients_lock st true) (client_writes st [x01] None) in
  broadcast_to_clients st [x01] None = Blocked stuck
  /\ clients stuck = clients st
  /\ (forall reader writer address,
        register_client stuck reader writer address = Blocked stuck)
  /\ (forall client_id, _remove_client stuck client_id = Blocked stuck)
  /\ (forall d e, broadcast_to_clients stuck d e = Blocked stuck).
Proof.
  apply (broadcast_deadlock
           (demo_proxy (demo_writer 0)
              [(1, demo_client 1);
               (2, {| reader := 2; writer := demo_broken_writer;
                      address := of_string "10.0.0.9:1"; cid := 2 |})])
           [x01] None).
  - reflexivity.
  - right. left. split; reflexivity.
Defined.

Section CodecMore.

Variable TEXT_MESSAGE_APP : Z.
Variable serialize_to_radio : ToRadio -> bytes.
Variable serialize_from_radio : FromRadio -> bytes.
Variable parse_to_radio : bytes -> option ToRadio.
Variable parse_from_radio : bytes -> option FromRadio.
Variable decode_utf8_ignore : bytes -> pystr.

Local Abbreviation handle_client_ :=
  (handle_client TEXT_MESSAGE_APP parse_to_radio parse_from_radio
                 decode_utf8_ignore).
Local Abbreviation handle_client_data_ :=
  (handle_client_data TEXT_MESSAGE_APP parse_to_radio parse_from_radio
                      decode_utf8_ignore).
Local Abbreviation handle_radio_data_ :=
  (handle_radio_data TEXT_MESSAGE_APP parse_to_radio parse_from_radio
                     decode_utf8_ignore).
Local Abbreviation is_gem_ :=
  (is_gem TEXT_MESSAGE_APP parse_to_radio parse_from_radio
          decode_utf8_ignore).
Local Abbreviation answers_ :=
  (answers TEXT_MESSAGE_APP parse_to_radio parse_from_radio
           decode_utf8_ignore).
Local Abbreviation send_ai_response_ :=
  (send_ai_response TEXT_MESSAGE_APP serialize_to_radio serialize_from_radio).
Local Abbreviation connect_to_radio_ := (connect_to_radio serialize_to_radio).
Local Abbreviation reconnect_to_radio_ :=
  (reconnect_to_radio serialize_to_radio).

(** X16 -- a client connection from accept to close: every chunk read
    before the end of file (or a read error) is written to the radio as
    it is, in order, and nothing else is written to any socket, whatever
    the chunks hold; read timeouts change nothing. In the end the client
    is removed: the registry is as before, the counter one higher. *)
Theorem handle_client_forwards (st : MultiClientProxy) (reader : nat)
  (writer : StreamWriter) (address : pystr) (reads : list read)
  (w : StreamWriter) :
  registry_ok st ->
  clients_lock st = false ->
  radio_lock st = false ->
  radio_connected st = true ->
  running st = true ->
  radio_writer st = Some w ->
  exists st1,
    handle_client_ st reader writer address reads = Done tt st1
    /\ socket_writes (trace st1)
       = socket_writes (trace st)
         ++ map (fun d => RadioWrite d (negb (write_raises w)))
                (received reads)
    /\ clients st1 = clients st
    /\ client_id_counter st1 = client_id_counter st + 1
    /\ registry_ok st1.
Proof.
  intros Hok Hcl Hrl Hrc Hrun Hw.
  pose proof (BrokerFacts.registry_counter_fresh st Hok) as Hf.
  unfold handle_client, register_client. rewrite Hcl. cbv zeta.
  cbn [bind cid client_id_counter set_client_id_counter clients
       radio_connected set_clients].
  rewrite Hrc. cbn [negb].
  rewrite BrokerFacts.dict_set_fresh by exact Hf.
  match goal with
  | |- context [client_loop _ _ _ _ ?s ?c reads] =>
      destruct (BrokerFacts.client_loop_log TEXT_MESSAGE_APP parse_to_radio
                  parse_from_radio decode_utf8_ignore c reads s Hrun Hrl)
        as (evs & Hloop & Hsw)
  end.
  rewrite Hloop. cbn [bind].
  rewrite BrokerFacts.remove_client_spec by exact Hcl.
  cbn [clients log set_clients].
  assert (Hex : existsb (fun c => fst c =? client_id_counter st + 1)
                  (clients st ++
                   [(client_id_counter st + 1,
                     {| reader := reader; Proxy.writer := writer;
                        address := address;
                        cid := client_id_counter st + 1 |})]) = true).
  { apply BrokerFacts.existsb_keys. rewrite map_app. apply in_or_app.
    right. now left. }
  rewrite Hex, BrokerFacts.filter_last_out by exact Hf.
  eexists. split; [reflexivity|].
  cbn [trace log set_clients clients client_id_counter
       set_client_id_counter].
  split; [|split; [reflexivity|split; [reflexivity|]]].
  - rewrite <- app_assoc, !BrokerFacts.socket_writes_app, Hsw.
    cbn [socket_writes filter is_socket_write]. rewrite app_nil_r.
    f_equal. now apply BrokerFacts.radio_events_map.
  - destruct Hok as [Hnd Hb]. split; [exact Hnd|].
    cbn [clients client_id_counter log set_clients set_client_id_counter].
    rewrite Forall_forall in *. intros c Hin. specialize (Hb c Hin). lia.
Qed.

(** X19 -- a chunk from the radio is written as it is, once, to every
    client, whatever it holds; interception writes to no socket. *)
Theorem radio_data_broadcast (st : MultiClientProxy) (data : bytes) :
  clients_lock st = false ->
  socket_writes (trace (state_of (handle_radio_data_ st data)))
  = socket_writes (trace st) ++ client_writes st data None.
Proof.
  intros Hl. unfold handle_radio_data. cbv zeta.
  destruct (add_data new_parser data) as [frames p'].
  destruct (BrokerFacts.intercept_spec TEXT_MESSAGE_APP parse_to_radio
              parse_from_radio decode_utf8_ignore frames st)
    as (evs & H1 & H2 & _).
  rewrite H1, ProxyFacts.broadcast_trace by exact Hl.
  cbn [log trace]. rewrite !BrokerFacts.socket_writes_app, H2, app_nil_r.
  now rewrite BrokerFacts.socket_writes_client_writes.
Qed.

(** X20 -- a chunk from a client creates one response task for each frame
    in it that carries a text record beginning with [/gem], in order, and
    no other task: the task holds the reply of [process_message], never
    empty and at most 600 characters, and the channel of the record. *)
Theorem client_data_tasks (st : MultiClientProxy)
  (client : ClientConnection) (data : bytes) :
  radio_lock st = false ->
  exists new,
    tasks_created (trace (state_of (handle_client_data_ st client data)))
    = tasks_created (trace st) ++ new
    /\ Forall2 (answers_ (gemini st))
               (filter is_gem_ (fst (add_data new_parser data))) new.
Proof.
  intros Hl.
  destruct (BrokerFacts.handle_client_data_log TEXT_MESSAGE_APP
              parse_to_radio parse_from_radio decode_utf8_ignore st client
              data Hl) as (evs & H1 & _ & H3).
  exists (tasks_created evs). rewrite H1. cbn [state_of log trace].
  split; [|exact H3].
  rewrite !BrokerFacts.tasks_created_app. f_equal.
  unfold radio_events. destruct (radio_writer st); cbn; now rewrite app_nil_r.
Qed.


(** X22 -- a reply for a channel outside [0 .. 0xFFFFFFFF], or with a
    surrogate among its first 200 characters, is dropped: the exception is
    caught, nothing is written to the radio or to any client and the proxy
    is left as it was. *)
Theorem ai_response_dropped (st : MultiClientProxy) (packet_id : Z)
  (text : pystr) (channel : option Z) :
  let use_channel :=
    match channel with Some c => c | None => channel_index st end in
  (use_channel < 0)%Z \/ (0xFFFFFFFF < use_channel)%Z
  \/ (exists c, In c (firstn 200 text) /\ (0xD800 <= c <= 0xDFFF)%N) ->
  send_ai_response_ st packet_id text channel = Done tt st.
Proof.
  intros use_channel H. unfold send_ai_response, ai_packet. cbv zeta.
  fold use_channel.
  destruct H as [H|[H|(c & Hin & Hc)]].
  - assert (E : in_uint32 use_channel = false).
    { unfold in_uint32. apply andb_false_iff. left. apply Z.leb_gt. lia. }
    rewrite E, andb_false_r. reflexivity.
  - assert (E : in_uint32 use_channel = false).
    { unfold in_uint32. apply andb_false_iff. right. apply Z.leb_gt. lia. }
    rewrite E, andb_false_r. reflexivity.
  - rewrite (BrokerFacts.encode_utf8_surrogate _ c Hin Hc).
    now destruct (_ && _).
Qed.

Lemma send_want_config_keeps (st : MultiClientProxy) (config_id : Z) :
  radio_writer (_send_want_config serialize_to_radio st config_id)
  = radio_writer st
  /\ running (_send_want_config serialize_to_radio st config_id) = running st.
Proof.
  unfold _send_want_config. destruct (in_uint32 config_id); [|now split].
  destruct (build _); [|now split].
  destruct (radio_writer st) eqn:E; [|now split].
  split; [exact E | reflexivity].
Qed.

(** X23 -- the handshake: when the dial succeeds [connect_to_radio] writes
    exactly one frame to the new socket, the upstream envelope with the
    [want_config_id] drawn (between 1 and [0xFFFFFFFF]), correctly framed;
    it then sets [radio_connected] and returns [True], also when that
    write fails. A dial that times out or fails returns [False] and leaves
    the proxy as it was. *)
Theorem connect_handshake (st : MultiClientProxy) (w : StreamWriter)
  (config_id : Z) :
  let payload :=
    serialize_to_radio {| to_packet := None; want_config_id := config_id |} in
  (1 <= config_id <= 0xFFFFFFFF)%Z ->
  (N.of_nat (length payload) <= 65535)%N ->
  (exists frame,
      build payload = Some frame
      /\ add_data new_parser frame = ([(frame, payload)], {| buffer := [] |})
      /\ fst (connect_to_radio_ st (Connected w) config_id) = true
      /\ trace (snd (connect_to_radio_ st (Connected w) config_id))
         = trace st ++ [RadioWrite frame (negb (write_raises w))]
      /\ radio_connected (snd (connect_to_radio_ st (Connected w) config_id))
         = true
      /\ radio_writer (snd (connect_to_radio_ st (Connected w) config_id))
         = Some w)
  /\ connect_to_radio_ st DialTimeout config_id = (false, st)
  /\ connect_to_radio_ st DialError config_id = (false, st).
Proof.
  intros payload Hid Hlen. split; [|now split].
  destruct (FrameFacts.build_add_data payload Hlen)
    as (hi & lo & _ & Hb & Hp).
  exists (MESHTASTIC_MAGIC ++ [hi; lo] ++ payload).
  split; [exact Hb|]. split; [exact Hp|].
  unfold connect_to_radio, _send_want_config. cbv zeta.
  assert (Hin : in_uint32 config_id = true).
  { unfold in_uint32. apply andb_true_iff. split; apply Z.leb_le; lia. }
  rewrite Hin. fold payload. rewrite Hb.
  cbn [radio_writer set_radio_writer]. now repeat split.
Qed.

Lemma reconnect_loop_fails (fails tail : list (dial * Z)) :
  forall (i : nat) (st : MultiClientProxy),
    running st = true ->
    Forall (fun d => fst d = DialTimeout \/ fst d = DialError) fails ->
    reconnect_loop serialize_to_radio st (backoff_at i) (fails ++ tail)
    = (map backoff_at (seq i (length fails))
       ++ fst (reconnect_loop serialize_to_radio st
                 (backoff_at (i + length fails)) tail),
       snd (reconnect_loop serialize_to_radio st
              (backoff_at (i + length fails)) tail)).
Proof.
  induction fails as [|[d cfg] fails IH]; intros i st Hr Hf.
  - cbn [app length seq map]. rewrite Nat.add_0_r.
    now destruct (reconnect_loop _ _ _ _).
  - inversion Hf as [|? ? Hd Hf']; subst. cbn [fst] in Hd.
    cbn [app reconnect_loop]. rewrite Hr. cbn [negb].
    assert (Hc : connect_to_radio serialize_to_radio st d cfg = (false, st))
      by (destruct Hd as [-> | ->]; reflexivity).
    rewrite Hc, BrokerFacts.backoff_next, (IH (S i) st Hr Hf').
    cbn [length seq map app fst snd].
    now replace (i + S (length fails)) with (S i + length fails) by lia.
Qed.

(** X24 -- reconnection: the latch is cleared first; before the attempts
    the proxy sleeps 1, 2, 4, 8, 16, 30, 30, ... seconds (never more than
    30), and it stops at the first dial that succeeds, with the new socket
    in place and the latch set; while the dials fail the latch stays
    clear. *)
Theorem reconnect_backoff (st : MultiClientProxy) (fails : list (dial * Z))
  (w : StreamWriter) (config_id : Z) (rest : list (dial * Z)) :
  running st = true ->
  Forall (fun d => fst d = DialTimeout \/ fst d = DialError) fails ->
  (fst (reconnect_to_radio_ st (fails ++ (Connected w, config_id) :: rest))
   = map backoff_at (seq 0 (S (length fails)))
   /\ radio_connected
        (snd (reconnect_to_radio_ st
                (fails ++ (Connected w, config_id) :: rest))) = true
   /\ radio_writer
        (snd (reconnect_to_radio_ st
                (fails ++ (Connected w, config_id) :: rest))) = Some w)
  /\ (fst (reconnect_to_radio_ st fails)
      = map backoff_at (seq 0 (length fails))
      /\ radio_connected (snd (reconnect_to_radio_ st fails)) = false)
  /\ forall i, 1 <= backoff_at i <= 30.
Proof.
  intros Hr Hf. unfold reconnect_to_radio.
  change 1 with (backoff_at 0) at 1 2 3 4 5.
  split; [|split].
  - rewrite (reconnect_loop_fails fails _ 0 (set_radio_connected st false)
               Hr Hf).
    cbn [Nat.add fst snd reconnect_loop running set_radio_connected].
    rewrite Hr. cbn [negb connect_to_radio fst snd]. rewrite seq_S, map_app.
    split; [reflexivity|]. split; [reflexivity|].
    cbn [radio_writer set_radio_connected].
    now destruct (send_want_config_keeps
                    (set_radio_writer (set_radio_connected st false) (Some w))
                    config_id) as [-> _].
  - rewrite <- (app_nil_r fails) at 1 3.
    rewrite (reconnect_loop_fails fails [] 0 (set_radio_connected st false)
               Hr Hf).
    cbn [Nat.add fst snd reconnect_loop running set_radio_connected].
    rewrite Hr. cbn [negb fst snd radio_connected set_radio_connected].
    now rewrite app_nil_r.
  - intros i. unfold backoff_at.
    assert (1 <= 2 ^ i) by (induction i; simpl; lia). lia.
Qed.

End CodecMore.

Lemma handle_client_forwards_witness :
  exists st1,
    demo_handle_client two_clients 3 (demo_writer 3)
      (of_string "10.0.0.7:4000") demo_reads = Done tt st1
    /\ socket_writes (trace st1)
       = socket_writes (trace two_clients)
         ++ map (fun d => RadioWrite d (negb (write_raises (demo_writer 0))))
                (received demo_reads)
    /\ clients st1 = clients two_clients
    /\ client_id_counter st1 = client_id_counter two_clients + 1
    /\ registry_ok st1.
Proof.
  apply (handle_client_forwards 1 demo_parse_to_radio demo_parse_from_radio
           demo_decode two_clients 3 (demo_writer 3)
           (of_string "10.0.0.7:4000") demo_reads (demo_writer 0));
    try reflexivity.
  split.
  - repeat constructor; simpl; intuition discriminate.
  - repeat constructor.
Defined.

Lemma radio_data_broadcast_witness :
  socket_writes (trace (state_of (demo_handle_radio_data two_clients
                                    (chunk1 ++ chunk2))))
  = socket_writes (trace two_clients)
    ++ client_writes two_clients (chunk1 ++ chunk2) None.
Proof.
  apply (radio_data_broadcast 1 demo_parse_to_radio demo_parse_from_radio
           demo_decode two_clients (chunk1 ++ chunk2)).
  reflexivity.
Defined.

Lemma client_data_tasks_witness :
  exists new,
    tasks_created (trace (state_of (demo_handle_client_data two_clients
                                      (demo_client 1) (chunk1 ++ chunk2))))
    = tasks_created (trace two_clients) ++ new
    /\ Forall2 (demo_answers (gemini two_clients))
               (filter demo_is_gem
                       (fst (add_data new_parser (chunk1 ++ chunk2)))) new.
Proof.
  apply (client_data_tasks 1 demo_parse_to_radio demo_parse_from_radio
           demo_decode two_clients (demo_client 1) (chunk1 ++ chunk2)).
  reflexivity.
Defined.


Lemma ai_response_dropped_witness :
  demo_send_ai_response
    (demo_proxy (demo_writer 0) [(1, demo_client 1)]) 77 (of_string "Hi")
    (Some (-1)%Z)
  = Done tt (demo_proxy (demo_writer 0) [(1, demo_client 1)]).
Proof.
  apply (ai_response_dropped 1 demo_serialize_to_radio
           demo_serialize_from_radio
           (demo_proxy (demo_writer 0) [(1, demo_client 1)]) 77
           (of_string "Hi") (Some (-1)%Z)).
  left. reflexivity.
Defined.

Lemma connect_handshake_witness :
  (exists frame,
      build [x0a] = Some frame
      /\ add_data new_parser frame = ([(frame, [x0a])], {| buffer := [] |})
      /\ fst (demo_connect two_clients (Connected demo_broken_writer) 9) = true
      /\ trace (snd (demo_connect two_clients (Connected demo_broken_writer) 9))
         = trace two_clients
           ++ [RadioWrite frame (negb (write_raises demo_broken_writer))]
      /\ radio_connected
           (snd (demo_connect two_clients (Connected demo_broken_writer) 9))
         = true
      /\ radio_writer
           (snd (demo_connect two_clients (Connected demo_broken_writer) 9))
         = Some demo_broken_writer)
  /\ demo_connect two_clients DialTimeout 9 = (false, two_clients)
  /\ demo_connect two_clients DialError 9 = (false, two_clients).
Proof.
  apply (connect_handshake demo_serialize_to_radio two_clients
           demo_broken_writer 9).
  - split; reflexivity || (intros H; discriminate).
  - vm_compute; discriminate.
Defined.

Lemma reconnect_backoff_witness :
  (fst (demo_reconnect two_clients
          (six_failures ++ (Connected (demo_writer 5), 11%Z) :: []))
   = [1; 2; 4; 8; 16; 30; 30]
   /\ radio_connected
        (snd (demo_reconnect two_clients
                (six_failures ++ (Connected (demo_writer 5), 11%Z) :: [])))
      = true
   /\ radio_writer
        (snd (demo_reconnect two_clients
                (six_failures ++ (Connected (demo_writer 5), 11%Z) :: [])))
      = Some (demo_writer 5))
  /\ (fst (demo_reconnect two_clients six_failures) = [1; 2; 4; 8; 16; 30]
      /\ radio_connected (snd (demo_reconnect two_clients six_failures))
         = false)
  /\ forall i, 1 <= backoff_at i <= 30.
Proof.
  apply (reconnect_backoff demo_serialize_to_radio two_clients six_failures
           (demo_writer 5) 11%Z []).
  - reflexivity.
  - unfold six_failures.
    repeat (apply Forall_cons;
            [cbn [fst]; (left; reflexivity) || (right; reflexivity)|]).
    apply Forall_nil.
Defined.

(** X25 -- garbage, a frame, anything: when the bytes before a frame hold
    no magic pair they are dropped, the frame is returned first, and what
    follows the frame is parsed as if it had come alone. *)
Theorem add_data_skips_garbage (garbage p fr rest : bytes) :
  ~ has_magic garbage ->
  build p = Some fr ->
  add_data new_parser (garbage ++ fr ++ rest)
  = ((fr, p) :: fst (add_data new_parser rest),
     snd (add_data new_parser rest)).
Proof.
  intros Hg Hb.
  destruct (FrameMore.build_shape p fr Hb) as (hi & lo & -> & Hlen).
  rewrite !FrameFacts.add_data_run. cbn [buffer new_parser app fst snd].
  pose proof (FrameFacts.run_frame hi lo p rest Hlen) as Hr.
  cbn [app] in Hr.
  enough (Hrun : run (garbage ++ x94 :: xc3 :: hi :: lo :: p ++ rest)
                 = run (x94 :: xc3 :: hi :: lo :: p ++ rest))
    by (now rewrite Hrun, Hr).
  destruct garbage as [|x g]; [reflexivity|].
  rewrite FrameFacts.run_eq.
  assert (Hl : (HEADER_SIZE <=?
                length ((x :: g) ++ x94 :: xc3 :: hi :: lo :: p ++ rest))
               = true).
  { apply Nat.leb_le. rewrite length_app. unfold HEADER_SIZE. simpl. lia. }
  rewrite Hl, (FrameFacts.find_magic_after_garbage (x :: g)) by assumption.
  assert (Hs : starts_magic ((x :: g) ++ x94 :: xc3 :: hi :: lo :: p ++ rest)
               = false).
  { destruct g as [|y g'].
    - destruct (starts_magic _) eqn:E; [|reflexivity].
      apply FrameFacts.starts_magic_true in E as [r' E]. cbn [app] in E.
      injection E as _ E _. discriminate.
    - rewrite FrameFacts.starts_magic_app by (simpl; lia).
      now apply FrameFacts.no_magic_start. }
  rewrite Hs, skipn_app, skipn_all, Nat.sub_diag. reflexivity.
Qed.

Lemma add_data_skips_garbage_witness :
  add_data new_parser
    ([x00; x94] ++ [x94; xc3; x00; x01; x5a] ++ [xff; x94; xc3; x00])
  = (([x94; xc3; x00; x01; x5a], [x5a])
       :: fst (add_data new_parser [xff; x94; xc3; x00]),
     snd (add_data new_parser [xff; x94; xc3; x00])).
Proof.
  apply (add_data_skips_garbage [x00; x94] [x5a]).
  - apply FrameFacts.find_magic_none_no_magic. reflexivity.
  - reflexivity.
Defined.
